(** * Conway's Game of Life on a torus: a shallow embedding of [game.ts]

    The class [GameOfLife] of [src/game.ts] is embedded as a record of its
    private members together with the part of the browser it talks to (the
    canvas, [alert], the timer queue and the animation-frame queue).  Every
    method becomes a function on that record, the state being passed
    explicitly.

    JavaScript arrays are modelled as finite maps from integer keys to
    values: an index that was never written reads as [None] ([undefined]),
    and an assignment to any integer key, inside the original length or not,
    stores the value under that key.

    Numbers are integers: cell values, counts, dimensions and the pixel
    coordinates of mouse events.  A function returns [None] for the
    executions that leave this domain: a [TypeError] (a cell of a missing
    row), a [RangeError] (an invalid array length) and arithmetic on an
    [undefined] cell (NaN).  None of them happens in a state that satisfies
    the invariant of the field, which every state reached from the
    constructor does. *)

From stdpp Require Import gmap strings list fin_maps.

Open Scope Z_scope.

(** ** Constants (game.ts, lines 1-15) *)

Definition CELL_STATES : list string := ["#fff"; "#acffaa"]%string.
Definition CELL_SIZE : Z := 15.

Definition NEIGHBOURS : list (Z * Z) :=
  [ (-1, -1); (0, -1); (1, -1);
    (-1, 0);           (1, 0);
    (-1, 1);  (0, 1);  (1, 1) ].

Module BREAKPOINTS.
Definition OVERPOPULATION : Z := 3.
Definition UNDERPOPULATION : Z := 2.
Definition NEWBORN : Z := 3.
End BREAKPOINTS.

Definition FPS : Z := 5.

(** ** The host environment *)

(** What the game draws: one entry per call of [drawCell], [drawGrid] and
    [ctx.clearRect]. [drawCell] receives pixel coordinates and the colour
    [CELL_STATES[v]], which is [undefined] ([None]) for an index outside the
    table. *)
Inductive CanvasOp :=
| DrawCell (x y : Z) (cellState : option string)
| DrawGrid (width height : Z)
| ClearRect (width height : Z).

#[global] Instance CanvasOp_eq_dec : EqDecision CanvasOp.
Proof. solve_decision. Defined.

(** The three members of a [MouseEvent] the game reads. [buttons] is the
    DOM bit mask: bit 0 is the primary button, bit 1 the secondary one,
    bit 2 the auxiliary one. *)
Record MouseEvent := mkMouseEvent {
  offsetX : Z;
  offsetY : Z;
  buttons : Z
}.

Definition primaryButtonHeld (e : MouseEvent) : Prop :=
  Z.testbit (buttons e) 0 = true.

(** ** The state of a game *)

Record GameOfLife := mkGame {
  cols : Z;
  rows : Z;
  field : gmap Z (gmap Z Z);      (* field[y][x] *)
  isSetting : bool;
  timeOut : option nat;           (* last handle returned by setTimeout *)
  frame : option nat;             (* last handle returned by requestAnimationFrame *)
  isRunning : bool;
  aborted : bool;                 (* abortController.signal.aborted *)
  hasSignsOfLife : bool;
  (* the browser *)
  canvas : list CanvasOp;         (* drawing calls, oldest first *)
  alerts : list string;           (* messages shown by alert, oldest first *)
  timers : gset nat;              (* timeouts that are still to fire *)
  frames : gset nat;              (* animation-frame requests still to fire *)
  nextHandle : nat                (* next fresh handle *)
}.

Definition set_field (v : gmap Z (gmap Z Z)) (g : GameOfLife) : GameOfLife :=
  mkGame (cols g) (rows g) v (isSetting g) (timeOut g) (frame g) (isRunning g)
    (aborted g) (hasSignsOfLife g) (canvas g) (alerts g) (timers g) (frames g)
    (nextHandle g).
Definition set_isSetting (v : bool) (g : GameOfLife) : GameOfLife :=
  mkGame (cols g) (rows g) (field g) v (timeOut g) (frame g) (isRunning g)
    (aborted g) (hasSignsOfLife g) (canvas g) (alerts g) (timers g) (frames g)
    (nextHandle g).
Definition set_timeOut (v : option nat) (g : GameOfLife) : GameOfLife :=
  mkGame (cols g) (rows g) (field g) (isSetting g) v (frame g) (isRunning g)
    (aborted g) (hasSignsOfLife g) (canvas g) (alerts g) (timers g) (frames g)
    (nextHandle g).
Definition set_frame (v : option nat) (g : GameOfLife) : GameOfLife :=
  mkGame (cols g) (rows g) (field g) (isSetting g) (timeOut g) v (isRunning g)
    (aborted g) (hasSignsOfLife g) (canvas g) (alerts g) (timers g) (frames g)
    (nextHandle g).
Definition set_isRunning (v : bool) (g : GameOfLife) : GameOfLife :=
  mkGame (cols g) (rows g) (field g) (isSetting g) (timeOut g) (frame g) v
    (aborted g) (hasSignsOfLife g) (canvas g) (alerts g) (timers g) (frames g)
    (nextHandle g).
Definition set_aborted (v : bool) (g : GameOfLife) : GameOfLife :=
  mkGame (cols g) (rows g) (field g) (isSetting g) (timeOut g) (frame g)
    (isRunning g) v (hasSignsOfLife g) (canvas g) (alerts g) (timers g)
    (frames g) (nextHandle g).
Definition set_hasSignsOfLife (v : bool) (g : GameOfLife) : GameOfLife :=
  mkGame (cols g) (rows g) (field g) (isSetting g) (timeOut g) (frame g)
    (isRunning g) (aborted g) v (canvas g) (alerts g) (timers g) (frames g)
    (nextHandle g).
Definition set_canvas (v : list CanvasOp) (g : GameOfLife) : GameOfLife :=
  mkGame (cols g) (rows g) (field g) (isSetting g) (timeOut g) (frame g)
    (isRunning g) (aborted g) (hasSignsOfLife g) v (alerts g) (timers g)
    (frames g) (nextHandle g).
Definition set_alerts (v : list string) (g : GameOfLife) : GameOfLife :=
  mkGame (cols g) (rows g) (field g) (isSetting g) (timeOut g) (frame g)
    (isRunning g) (aborted g) (hasSignsOfLife g) (canvas g) v (timers g)
    (frames g) (nextHandle g).
Definition set_timers (v : gset nat) (g : GameOfLife) : GameOfLife :=
  mkGame (cols g) (rows g) (field g) (isSetting g) (timeOut g) (frame g)
    (isRunning g) (aborted g) (hasSignsOfLife g) (canvas g) (alerts g) v
    (frames g) (nextHandle g).
Definition set_frames (v : gset nat) (g : GameOfLife) : GameOfLife :=
  mkGame (cols g) (rows g) (field g) (isSetting g) (timeOut g) (frame g)
    (isRunning g) (aborted g) (hasSignsOfLife g) (canvas g) (alerts g)
    (timers g) v (nextHandle g).
Definition set_nextHandle (v : nat) (g : GameOfLife) : GameOfLife :=
  mkGame (cols g) (rows g) (field g) (isSetting g) (timeOut g) (frame g)
    (isRunning g) (aborted g) (hasSignsOfLife g) (canvas g) (alerts g)
    (timers g) (frames g) v.

(** [canvas.width] and [canvas.height], assigned once by the constructor
    (lines 35-36). *)
Definition canvas_width (g : GameOfLife) : Z := cols g * CELL_SIZE.
Definition canvas_height (g : GameOfLife) : Z := rows g * CELL_SIZE.

(** *** Browser primitives *)

Definition alert (msg : string) (g : GameOfLife) : GameOfLife :=
  set_alerts (alerts g ++ [msg]) g.

Definition clearTimeout (h : option nat) (g : GameOfLife) : GameOfLife :=
  match h with
  | Some id => set_timers (timers g ∖ {[id]}) g
  | None => g
  end.

Definition cancelAnimationFrame (h : option nat) (g : GameOfLife) : GameOfLife :=
  match h with
  | Some id => set_frames (frames g ∖ {[id]}) g
  | None => g
  end.

(** [this.timeOut = setTimeout(...)]: a fresh pending timer whose handle is
    stored. *)
Definition setTimeout (g : GameOfLife) : GameOfLife :=
  let id := nextHandle g in
  set_timeOut (Some id)
    (set_timers ({[id]} ∪ timers g) (set_nextHandle (S id) g)).

(** [this.frame = requestAnimationFrame(this.render)]. *)
Definition requestAnimationFrame (g : GameOfLife) : GameOfLife :=
  let id := nextHandle g in
  set_frame (Some id)
    (set_frames ({[id]} ∪ frames g) (set_nextHandle (S id) g)).

(** ** JavaScript values *)

(** Truthiness of a number, and of a possibly [undefined] one. *)
Definition truthy (v : Z) : bool := negb (bool_decide (v = 0)).

Definition truthyOpt (v : option Z) : bool :=
  match v with
  | Some v => truthy v
  | None => false
  end.

(** [new Array(n).fill(v)]: a [RangeError] unless [n] is a valid array
    length. *)
Definition newArray (n v : Z) : option (gmap Z Z) :=
  if decide (0 ≤ n < 2 ^ 32)
  then Some (list_to_map ((λ i, (i, v)) <$> seqZ 0 n))
  else None.

(** [CELL_STATES[v]] for the value just read back from the field. *)
Definition cellStateOf (v : option Z) : option string :=
  match v with
  | Some v => if decide (0 ≤ v) then CELL_STATES !! Z.to_nat v else None
  | None => None
  end.

(** A loop over a list whose body may raise. *)
Fixpoint forM {A S : Type} (body : S → A → option S) (l : list A) (s : S)
  : option S :=
  match l with
  | [] => Some s
  | a :: l' => s' ← body s a; forM body l' s'
  end.

(** ** The field *)

(** [this.field[y]?.[x]], which is [undefined] ([None]) for a missing row
    and for a missing cell alike; also [this.field[y][x]] where the value
    is used as a number, [None] then standing for the [TypeError] of a
    missing row or for the [undefined] operand. *)
Definition readCell (g : GameOfLife) (y x : Z) : option Z :=
  field g !! y ≫= λ row, row !! x.

Definition drawCell (x y : Z) (cellState : option string) (g : GameOfLife)
  : GameOfLife :=
  set_canvas (canvas g ++ [DrawCell x y cellState]) g.

(** [this.field[y][x] = v] (lines 43-48): the assignment goes through the
    row's proxy, whose [set] trap stores the value with [Reflect.set] and,
    the store having succeeded, draws the cell.  A missing row is a
    [TypeError]. *)
Definition fieldSet (g : GameOfLife) (y x v : Z) : option GameOfLife :=
  row ← field g !! y;
  let g' := set_field (<[y := <[x := v]> row]> (field g)) g in
  Some (drawCell (x * CELL_SIZE) (y * CELL_SIZE) (cellStateOf (readCell g' y x)) g').

(** [generateField] (lines 41-50): [rows] proxied rows of [cols] zeros. *)
Definition generateField (g : GameOfLife) : option (gmap Z (gmap Z Z)) :=
  if decide (0 ≤ rows g < 2 ^ 32)
  then rs ← mapM (λ y, row ← newArray (cols g) 0; Some (y, row)) (seqZ 0 (rows g));
       Some (list_to_map rs)
  else None.

Definition drawGrid (g : GameOfLife) : GameOfLife :=
  set_canvas (canvas g ++ [DrawGrid (canvas_width g) (canvas_height g)]) g.

(** ** Painting the first generation *)

(** [getCellCoords] (lines 79-81). The quotient is the exact one; the
    floor of the binary64 quotient the code takes agrees with it on the
    pixel coordinates of a canvas, and can differ from it by one only from
    an offset of magnitude 15 * 2^50 on. *)
Definition getCellCoords (e : MouseEvent) : Z * Z :=
  (offsetX e `div` CELL_SIZE, offsetY e `div` CELL_SIZE).

(** [setFirstGen] (lines 89-99). *)
Definition setFirstGen (g : GameOfLife) (e : MouseEvent) : option GameOfLife :=
  if decide (buttons e ≠ 1 ∨ offsetY e < 0 ∨ offsetY e >= canvas_height g)
  then Some g
  else
    let '(x, y) := getCellCoords e in
    fieldSet g y x (Z.b2z (isSetting g)).

(** [setMode] (lines 83-87). *)
Definition setMode (g : GameOfLife) (e : MouseEvent) : option GameOfLife :=
  let '(x, y) := getCellCoords e in
  let g := set_isSetting (negb (truthyOpt (readCell g y x))) g in
  setFirstGen g e.

(** ** The rule *)

(** One coordinate of a neighbour, wrapped as in lines 110-120. *)
Definition wrap (dim n : Z) : Z :=
  if decide (n < 0) then dim - 1
  else if decide (n >= dim) then 0
  else n.

(** The [for] loop of [getNeighboursCount] (lines 103-123), over the
    neighbours still to visit. *)
Fixpoint neighboursLoop (g : GameOfLife) (Cx Cy : Z) (ns : list (Z * Z))
    (count : Z) : option Z :=
  match ns with
  | [] => Some count
  | neighbour :: ns' =>
      if decide (count > BREAKPOINTS.OVERPOPULATION) then Some count
      else
        let Nx := wrap (cols g) (Cx + neighbour.1) in
        let Ny := wrap (rows g) (Cy + neighbour.2) in
        v ← readCell g Ny Nx;
        neighboursLoop g Cx Cy ns' (count + v)
  end.

Definition getNeighboursCount (g : GameOfLife) (Cx Cy : Z) : option Z :=
  neighboursLoop g Cx Cy NEIGHBOURS 0.

(** Lines 131-137 of [getCellState]: the next state of a cell from its
    state and the count of its neighbours. *)
Definition nextState (isAlive neighboursCount : Z) : Z :=
  if truthy isAlive
     && (bool_decide (neighboursCount > BREAKPOINTS.OVERPOPULATION)
         || bool_decide (neighboursCount < BREAKPOINTS.UNDERPOPULATION))
  then 0
  else if negb (truthy isAlive)
          && bool_decide (neighboursCount = BREAKPOINTS.NEWBORN)
  then 1
  else isAlive.

(** [getCellState] (lines 127-138). *)
Definition getCellState (g : GameOfLife) (x y : Z) : option Z :=
  neighboursCount ← getNeighboursCount g x y;
  isAlive ← readCell g y x;
  Some (nextState isAlive neighboursCount).

(** ** Life cycle *)

(** [init] (lines 180-189). The listeners are attached with the signal of
    the current controller, so they are live exactly while [aborted] is
    false. *)
Definition init (g : GameOfLife) : option GameOfLife :=
  let g := set_isRunning false g in
  let g := if aborted g then set_aborted false g else g in
  f ← generateField g;
  let g := set_field f g in
  let g := set_hasSignsOfLife true g in
  Some (drawGrid g).

(** [reset] (lines 198-203). *)
Definition reset (g : GameOfLife) : option GameOfLife :=
  let g := clearTimeout (timeOut g) g in
  let g := cancelAnimationFrame (frame g) g in
  let g := set_canvas (canvas g ++ [ClearRect (canvas_width g) (canvas_height g)]) g in
  init g.

(** The constructor (lines 30-39), with the initial values of the member
    declarations (lines 23-28), in a browser that has drawn nothing yet. *)
Definition newGameOfLife (cols rows : Z) : option GameOfLife :=
  init (mkGame cols rows ∅ true None None false false false [] [] ∅ ∅ 0).

(** ** One generation *)

Record Change := mkChange { cx : Z; cy : Z; cstate : Z }.

#[global] Instance Change_eq_dec : EqDecision Change.
Proof. solve_decision. Defined.

(** The body of the two nested loops of [updateField] (lines 146-153);
    the accumulator holds [cellsToChange] and [this.hasSignsOfLife]. *)
Definition scanCell (g : GameOfLife) (x y : Z) (acc : list Change * bool)
  : option (list Change * bool) :=
  nextCellState ← getCellState g x y;
  cur ← readCell g y x;
  let cellsToChange :=
    if decide (nextCellState ≠ cur)
    then acc.1 ++ [mkChange x y nextCellState]
    else acc.1 in
  let life :=
    if truthy nextCellState && negb acc.2 then truthy nextCellState else acc.2 in
  Some (cellsToChange, life).

(** Lines 141-155: the scan of the whole field, columns outermost. *)
Definition scanField (g : GameOfLife) : option (list Change * bool) :=
  forM (λ acc x, forM (λ acc y, scanCell g x y acc) (seqZ 0 (rows g)) acc)
       (seqZ 0 (cols g)) ([], false).

Definition harmonyMessage : string := "Our civilization has reached harmony!".
Definition extinctMessage : string := "Our civilization has perished :(".

(** The body of the last loop of [updateField] (lines 166-169). *)
Definition applyChange (g : GameOfLife) (c : Change) : option GameOfLife :=
  fieldSet g (cy c) (cx c) (cstate c).

(** [updateField] (lines 140-170). *)
Definition updateField (g : GameOfLife) : option GameOfLife :=
  scanned ← scanField g;
  let cellsToChange := scanned.1 in
  let g := set_hasSignsOfLife scanned.2 g in
  g ← (if decide (length cellsToChange = 0%nat)
       then
         let g := set_isRunning false g in
         let g := cancelAnimationFrame (frame g) g in
         let g := clearTimeout (timeOut g) g in
         let g := alert (if hasSignsOfLife g then harmonyMessage
                         else extinctMessage) g in
         if negb (hasSignsOfLife g) then reset g else Some g
       else Some g);
  forM applyChange cellsToChange g.

(** [render] (lines 172-178). *)
Definition render (g : GameOfLife) : option GameOfLife :=
  if negb (isRunning g) then Some g
  else g ← updateField g; Some (setTimeout g).

(** [start] (lines 191-196). *)
Definition start (g : GameOfLife) : option GameOfLife :=
  if isRunning g then Some g
  else
    let g := set_isRunning true g in
    let g := set_aborted true g in
    render g.

(** ** The event loop

    Everything that can call into the game: the two canvas listeners (live
    while the controller is not aborted), the two buttons (lines 208-209),
    a timeout firing (its callback requests an animation frame, line 176)
    and an animation frame firing (its callback is [render]).  A handle
    that is no longer pending fires nothing. *)
Inductive Event :=
| MouseMove (e : MouseEvent)
| MouseDown (e : MouseEvent)
| ClickStart
| ClickReset
| TimerFires (id : nat)
| FrameFires (id : nat).

Definition step (g : GameOfLife) (ev : Event) : option GameOfLife :=
  match ev with
  | MouseMove e => if aborted g then Some g else setFirstGen g e
  | MouseDown e => if aborted g then Some g else setMode g e
  | ClickStart => start g
  | ClickReset => reset g
  | TimerFires id =>
      if decide (id ∈ timers g)
      then Some (requestAnimationFrame (set_timers (timers g ∖ {[id]}) g))
      else Some g
  | FrameFires id =>
      if decide (id ∈ frames g)
      then render (set_frames (frames g ∖ {[id]}) g)
      else Some g
  end.

Definition run (g : GameOfLife) (evs : list Event) : option GameOfLife :=
  forM step evs g.

(** ** Spec-side definitions *)

(** The neighbours of a cell on the torus, and their plain sum: no early
    exit, coordinates taken modulo the dimensions. A cell that holds no
    value counts as zero. *)
Definition cellValue (g : GameOfLife) (x y : Z) : Z :=
  default 0 (readCell g y x).

Definition torusSum (g : GameOfLife) (cx cy : Z) (ns : list (Z * Z)) : Z :=
  foldr (λ d acc,
           cellValue g ((cx + d.1) `mod` cols g) ((cy + d.2) `mod` rows g) + acc)
        0 ns.

Definition fullNeighboursCount (g : GameOfLife) (cx cy : Z) : Z :=
  torusSum g cx cy NEIGHBOURS.

(** [getCellState] with the full count in place of the early-exiting one. *)
Definition getCellStateFull (g : GameOfLife) (x y : Z) : option Z :=
  isAlive ← readCell g y x;
  Some (nextState isAlive (fullNeighboursCount g x y)).

(** The B3/S23 table, written out. *)
Definition lifeTable (currentState neighbourCount : Z) : Z :=
  if decide (currentState = 1)
  then (if decide (neighbourCount = 2 ∨ neighbourCount = 3) then 1 else 0)
  else (if decide (neighbourCount = 3) then 1 else 0).

(** The cells of the grid in the order in which [updateField] visits them,
    the change entry a cell gives rise to, and the outcome of a whole scan
    described cell by cell. *)
Definition gridCells (g : GameOfLife) : list (Z * Z) :=
  x ← seqZ 0 (cols g); (λ y, (x, y)) <$> seqZ 0 (rows g).

Definition changeOf (g : GameOfLife) (p : Z * Z) : list Change :=
  match getCellState g p.1 p.2, readCell g p.2 p.1 with
  | Some s, Some c => if decide (s ≠ c) then [mkChange p.1 p.2 s] else []
  | _, _ => []
  end.

Definition diffOf (g : GameOfLife) (ps : list (Z * Z)) : list Change :=
  ps ≫= changeOf g.

Definition lifeOf (g : GameOfLife) (ps : list (Z * Z)) : bool :=
  existsb (λ p, truthyOpt (getCellState g p.1 p.2)) ps.

(** The notification a recorded change causes when it is written back. *)
Definition drawOf (c : Change) : CanvasOp :=
  DrawCell (cx c * CELL_SIZE) (cy c * CELL_SIZE) (cellStateOf (Some (cstate c))).

(** Events of the browser's own queues, as opposed to the user's. *)
Definition isQueueEvent (ev : Event) : Prop :=
  match ev with
  | TimerFires _ | FrameFires _ => True
  | _ => False
  end.

(** ** The invariant of the field *)

Definition inGrid (g : GameOfLife) (x y : Z) : Prop :=
  0 ≤ x < cols g ∧ 0 ≤ y < rows g.

Definition binaryCell (g : GameOfLife) (x y : Z) : Prop :=
  readCell g y x = Some 0 ∨ readCell g y x = Some 1.

(** The dimensions with which [generateField] does not raise. *)
Definition validDims (g : GameOfLife) : Prop :=
  0 ≤ rows g < 2 ^ 32 ∧ (rows g = 0 ∨ 0 ≤ cols g < 2 ^ 32).

(** Valid dimensions, exactly the rows [0 .. rows-1], and every cell of the
    grid holding 0 or 1. *)
Definition fieldInv (g : GameOfLife) : Prop :=
  validDims g ∧
  dom (field g) = list_to_set (seqZ 0 (rows g)) ∧
  Forall (λ x, Forall (λ y, binaryCell g x y) (seqZ 0 (rows g)))
         (seqZ 0 (cols g)).

#[global] Instance inGrid_dec g x y : Decision (inGrid g x y).
Proof. unfold inGrid. apply _. Defined.

#[global] Instance validDims_dec g : Decision (validDims g).
Proof. unfold validDims. apply _. Defined.

#[global] Instance binaryCell_dec g x y : Decision (binaryCell g x y).
Proof. unfold binaryCell. apply _. Defined.

#[global] Instance fieldInv_dec g : Decision (fieldInv g).
Proof. unfold fieldInv. apply _. Defined.

(** ** Test games *)

(** A game whose field is given row by row, as after [newGameOfLife] and
    some painting. *)
Definition arrayOf {A} (l : list A) : gmap Z A :=
  list_to_map (zip (seqZ 0 (Z.of_nat (length l))) l).

Definition gameOfRows (cols : Z) (rs : list (list Z)) : GameOfLife :=
  mkGame cols (Z.of_nat (length rs)) (arrayOf (arrayOf <$> rs))
    true None None false false true
    [DrawGrid (cols * CELL_SIZE) (Z.of_nat (length rs) * CELL_SIZE)] [] ∅ ∅ 0.

Definition emptyGame3 : GameOfLife :=
  gameOfRows 3 [[0; 0; 0]; [0; 0; 0]; [0; 0; 0]].
Definition cornerGame3 : GameOfLife :=
  gameOfRows 3 [[1; 0; 0]; [0; 0; 0]; [0; 0; 0]].
Definition fullGame3 : GameOfLife :=
  gameOfRows 3 [[1; 1; 1]; [1; 1; 1]; [1; 1; 1]].
Definition blockGame4 : GameOfLife :=
  gameOfRows 4 [[0; 0; 0; 0]; [0; 1; 1; 0]; [0; 1; 1; 0]; [0; 0; 0; 0]].
Definition blinkerGame5 : GameOfLife :=
  gameOfRows 5 [[0; 0; 0; 0; 0]; [0; 0; 0; 0; 0]; [0; 1; 1; 1; 0];
                [0; 0; 0; 0; 0]; [0; 0; 0; 0; 0]].

(** ** The grid lines

    [drawGrid] (lines 60-77) is recorded above as one canvas operation.
    Its two loops, which lay the path of the grid lines, are modelled here
    on their own: each advances by [CELL_SIZE] and is given fuel. *)
Inductive PathOp :=
| MoveTo (x y : Z)
| LineTo (x y : Z).

Fixpoint lineLoop (fuel : nat) (pos limit : Z) (line : Z → list PathOp)
  : option (list PathOp) :=
  match fuel with
  | O => None
  | S fuel =>
      if decide (pos < limit)
      then rest ← lineLoop fuel (pos + CELL_SIZE) limit line;
           Some (line pos ++ rest)
      else Some []
  end.

Definition drawGridPath (fuel : nat) (g : GameOfLife) : option (list PathOp) :=
  vertical ← lineLoop fuel 0 (canvas_width g)
                (λ x, [MoveTo x 0; LineTo x (canvas_height g)]);
  horizontal ← lineLoop fuel 0 (canvas_height g)
                  (λ y, [MoveTo 0 y; LineTo (canvas_width g) y]);
  Some (vertical ++ horizontal).

(** ** Whole boards *)

(** Every cell of the grid holds [v]. *)
Definition allCells (v : Z) (g : GameOfLife) : Prop :=
  Forall (λ p, readCell g p.2 p.1 = Some v) (gridCells g).

(** Cell [(a, b)] is alive and every other cell of the grid is dead. *)
Definition loneCell (a b : Z) (g : GameOfLife) : Prop :=
  Forall (λ p, readCell g p.2 p.1
               = Some (if decide (p.1 = a ∧ p.2 = b) then 1 else 0))
         (gridCells g).

(** [h] has the dimensions of [g] and its field is the field of [g] moved
    by [(dx, dy)] around the torus. *)
Definition translated (dx dy : Z) (g h : GameOfLife) : Prop :=
  cols h = cols g ∧ rows h = rows g ∧
  Forall (λ p, readCell h ((p.2 + dy) `mod` rows g) ((p.1 + dx) `mod` cols g)
               = readCell g p.2 p.1)
         (gridCells g).

#[global] Instance allCells_dec v g : Decision (allCells v g).
Proof. unfold allCells. apply _. Defined.

#[global] Instance loneCell_dec a b g : Decision (loneCell a b g).
Proof. unfold loneCell. apply _. Defined.

#[global] Instance translated_dec dx dy g h : Decision (translated dx dy g h).
Proof. unfold translated. apply _. Defined.

(** The coordinates of a change entry. *)
Definition changeCoords (c : Change) : Z * Z := (cx c, cy c).

(** ** Paint events

    A paint event aimed at cell [(x, y)]: a mouse event with the primary
    button held alone whose pointer maps to that cell. *)
Definition paintsAt (x y : Z) (ev : Event) : Prop :=
  match ev with
  | MouseMove e | MouseDown e => buttons e = 1 ∧ getCellCoords e = (x, y)
  | _ => False
  end.

(** The events that can recreate the field: [reset], and [start] and an
    animation frame when the generation they compute finds the colony
    extinct. *)
Definition mayRecreateField (ev : Event) : Prop :=
  match ev with
  | ClickStart | ClickReset | FrameFires _ => True
  | _ => False
  end.

#[global] Instance MouseEvent_eq_dec : EqDecision MouseEvent.
Proof. solve_decision. Defined.

#[global] Instance paintsAt_dec x y ev : Decision (paintsAt x y ev).
Proof. destruct ev; cbn; apply _. Defined.

#[global] Instance mayRecreateField_dec ev : Decision (mayRecreateField ev).
Proof. destruct ev; cbn; apply _. Defined.

(** * Properties *)

#[global] Arguments getCellState : simpl never.
#[global] Arguments getNeighboursCount : simpl never.
#[global] Arguments readCell : simpl never.
#[global] Arguments fieldSet : simpl never.
#[global] Arguments scanField : simpl never.
#[global] Arguments updateField : simpl never.
#[global] Arguments reset : simpl never.
#[global] Arguments init : simpl never.
#[global] Arguments generateField : simpl never.

(** ** Sanity checks of the model on small games *)

Example newGameOfLife_3_3 : newGameOfLife 3 3 = Some emptyGame3.
Proof. vm_compute. reflexivity. Qed.

Example emptyGame3_inv : fieldInv emptyGame3.
Proof. apply (bool_decide_unpack _). vm_compute. exact I. Qed.

Example corner_count : getNeighboursCount cornerGame3 2 2 = Some 1.
Proof. reflexivity. Qed.

Example block_is_still :
  scanField blockGame4 = Some ([], true).
Proof. vm_compute. reflexivity. Qed.

Example blinker_has_period_two :
  ∃ g1 g2, updateField blinkerGame5 = Some g1 ∧ updateField g1 = Some g2
           ∧ field g1 ≠ field blinkerGame5 ∧ field g2 = field blinkerGame5.
Proof.
  eexists _, _. split; [vm_compute; reflexivity|].
  split; [vm_compute; reflexivity|]. split; [|vm_compute; reflexivity].
  intros H. apply (f_equal (λ f, f !! 1 ≫= λ r, r !! 2)) in H.
  vm_compute in H. discriminate.
Qed.

(** ** What the invariant gives *)

Section Invariant.
Context (g : GameOfLife) (Hinv : fieldInv g).

Lemma inv_dims : validDims g.
Proof. apply Hinv. Qed.

Lemma inv_row y : is_Some (field g !! y) ↔ 0 ≤ y < rows g.
Proof.
  destruct Hinv as (_ & Hdom & _).
  rewrite <- elem_of_dom, Hdom, elem_of_list_to_set, elem_of_seqZ. lia.
Qed.


Lemma inv_binary x y : inGrid g x y → binaryCell g x y.
Proof.
  intros [Hx Hy]. destruct Hinv as (_ & _ & Hall).
  rewrite Forall_forall in Hall.
  specialize (Hall x). rewrite elem_of_seqZ in Hall.
  assert (Hc := Hall ltac:(lia)). rewrite Forall_forall in Hc.
  apply Hc, elem_of_seqZ. lia.
Qed.

Lemma inv_cell x y :
  inGrid g x y → ∃ v, readCell g y x = Some v ∧ (v = 0 ∨ v = 1).
Proof.
  intros Hxy. destruct (inv_binary x y Hxy) as [H|H]; eauto.
Qed.
End Invariant.

Lemma fieldInv_intro (g : GameOfLife) :
  validDims g →
  (∀ y, is_Some (field g !! y) ↔ 0 ≤ y < rows g) →
  (∀ x y, inGrid g x y → binaryCell g x y) →
  fieldInv g.
Proof.
  intros Hd Hdom Hcell.
  split; [done|]. split.
  - apply set_eq. intros y.
    rewrite elem_of_dom, Hdom, elem_of_list_to_set, elem_of_seqZ. lia.
  - apply Forall_forall. intros x Hx. apply Forall_forall. intros y Hy.
    rewrite elem_of_seqZ in Hx, Hy. apply Hcell. split; lia.
Qed.

(** ** Loops *)

Lemma forM_cons {A S} (body : S → A → option S) a l s :
  forM body (a :: l) s = body s a ≫= forM body l.
Proof. done. Qed.

Lemma forM_app {A S} (body : S → A → option S) l1 l2 s :
  forM body (l1 ++ l2) s = forM body l1 s ≫= forM body l2.
Proof.
  revert s. induction l1 as [|a l1 IH]; intros s; simpl; [done|].
  destruct (body s a); simpl; [apply IH | done].
Qed.

Lemma forM_fmap {A B S} (body : S → B → option S) (h : A → B) l s :
  forM body (h <$> l) s = forM (λ acc a, body acc (h a)) l s.
Proof.
  revert s. induction l as [|a l IH]; intros s; [done|].
  cbn. destruct (body s (h a)); cbn; [apply IH | done].
Qed.

(** Two nested loops are one loop over the pairs, outer index first. *)
Lemma forM_nested {A B S} (f : A → B → S → option S) xs ys s :
  forM (λ acc x, forM (λ acc y, f x y acc) ys acc) xs s
  = forM (λ acc p, f p.1 p.2 acc) (x ← xs; (λ y, (x, y)) <$> ys) s.
Proof.
  revert s. induction xs as [|x xs IH]; intros s; [done|].
  cbn. rewrite forM_app, forM_fmap. cbn.
  destruct (forM _ ys s); cbn; [apply IH | done].
Qed.

(** ** Writing a cell *)

Lemma readCell_fieldSet g y x v g' y' x' :
  fieldSet g y x v = Some g' →
  readCell g' y' x' = if decide (y' = y ∧ x' = x) then Some v else readCell g y' x'.
Proof.
  unfold fieldSet. destruct (field g !! y) as [row|] eqn:Hrow; [|done].
  simpl. intros [= <-]. unfold readCell. simpl.
  destruct (decide (y' = y)) as [->|Hy].
  - rewrite lookup_insert_eq, Hrow. simpl.
    destruct (decide (x' = x)) as [->|Hx].
    + rewrite lookup_insert_eq. by rewrite decide_True.
    + rewrite lookup_insert_ne by done. rewrite decide_False; [done|]. tauto.
  - rewrite lookup_insert_ne by done. rewrite decide_False; [done|]. tauto.
Qed.

Lemma fieldSet_is_Some g y x v :
  is_Some (field g !! y) → is_Some (fieldSet g y x v).
Proof. intros [row Hrow]. unfold fieldSet. rewrite Hrow. simpl. eauto. Qed.

Lemma fieldSet_row g y x v g' y' :
  fieldSet g y x v = Some g' →
  is_Some (field g' !! y') ↔ is_Some (field g !! y').
Proof.
  unfold fieldSet. destruct (field g !! y) as [row|] eqn:Hrow; [|done].
  simpl. intros [= <-]. simpl.
  destruct (decide (y' = y)) as [->|Hy].
  - rewrite lookup_insert_eq, Hrow. split; eauto.
  - by rewrite lookup_insert_ne.
Qed.

(** Everything but the field and the canvas is left alone, and the canvas
    receives exactly one [drawCell]. *)
Lemma fieldSet_frame g y x v g' :
  fieldSet g y x v = Some g' →
  cols g' = cols g ∧ rows g' = rows g ∧ isSetting g' = isSetting g
  ∧ timeOut g' = timeOut g ∧ frame g' = frame g ∧ isRunning g' = isRunning g
  ∧ aborted g' = aborted g ∧ hasSignsOfLife g' = hasSignsOfLife g
  ∧ alerts g' = alerts g ∧ timers g' = timers g ∧ frames g' = frames g
  ∧ nextHandle g' = nextHandle g
  ∧ canvas g' = canvas g
                ++ [DrawCell (x * CELL_SIZE) (y * CELL_SIZE) (cellStateOf (Some v))].
Proof.
  intros Hset. assert (Hread := readCell_fieldSet _ _ _ _ _ y x Hset).
  rewrite decide_True in Hread by done.
  unfold fieldSet in Hset. destruct (field g !! y) as [row|]; [|done].
  simpl in Hset. injection Hset as <-. simpl.
  repeat split; try done.
  unfold drawCell. simpl. do 3 f_equal.
  unfold readCell. simpl. rewrite lookup_insert_eq. simpl.
  by rewrite lookup_insert_eq.
Qed.

Lemma fieldSet_inv g y x v g' :
  fieldInv g → v = 0 ∨ v = 1 → fieldSet g y x v = Some g' → fieldInv g'.
Proof.
  intros Hinv Hv Hset.
  destruct (fieldSet_frame _ _ _ _ _ Hset) as (Hc & Hr & _).
  apply fieldInv_intro.
  - unfold validDims. rewrite Hc, Hr. by apply inv_dims.
  - intros y'. rewrite (fieldSet_row _ _ _ _ _ y' Hset), Hr. by apply inv_row.
  - intros x' y' [Hx Hy]. unfold binaryCell.
    rewrite (readCell_fieldSet _ _ _ _ _ y' x' Hset).
    case_decide; [destruct Hv; subst; tauto|].
    apply (inv_binary g Hinv). split; congruence.
Qed.

(** ** Neighbours on the torus *)

Lemma wrap_mod dim n : 0 < dim → -1 ≤ n ≤ dim → wrap dim n = n `mod` dim.
Proof.
  intros Hdim Hn. unfold wrap. repeat case_decide.
  - assert (n = -1) as -> by lia.
    apply (Z.mod_unique (-1) dim (-1)); lia.
  - assert (n = dim) as -> by lia. by rewrite Z_mod_same_full.
  - rewrite Z.mod_small; lia.
Qed.

Lemma wrap_range dim n : 0 < dim → -1 ≤ n ≤ dim → 0 ≤ wrap dim n < dim.
Proof. intros Hdim Hn. unfold wrap. repeat case_decide; lia. Qed.

Lemma NEIGHBOURS_offsets :
  Forall (λ d : Z * Z, -1 ≤ d.1 ≤ 1 ∧ -1 ≤ d.2 ≤ 1) NEIGHBOURS.
Proof. unfold NEIGHBOURS. repeat constructor; simpl; lia. Qed.

Lemma NEIGHBOURS_not_self :
  ((0, 0) ∉ NEIGHBOURS) ∧ length NEIGHBOURS = 8%nat.
Proof.
  split; [|done]. unfold NEIGHBOURS. intros H.
  repeat (apply elem_of_cons in H as [H|H]; [discriminate|]).
  by apply elem_of_nil in H.
Qed.

Section Counting.
Context (g : GameOfLife) (Hinv : fieldInv g).
Context (Cx Cy : Z) (Hin : inGrid g Cx Cy).

Lemma neighbour_read (d : Z * Z) :
  -1 ≤ d.1 ≤ 1 ∧ -1 ≤ d.2 ≤ 1 →
  ∃ v, readCell g (wrap (rows g) (Cy + d.2)) (wrap (cols g) (Cx + d.1)) = Some v
       ∧ cellValue g ((Cx + d.1) `mod` cols g) ((Cy + d.2) `mod` rows g) = v
       ∧ (v = 0 ∨ v = 1).
Proof.
  intros [Hd1 Hd2]. destruct Hin as [Hx Hy].
  destruct (inv_cell g Hinv (wrap (cols g) (Cx + d.1)) (wrap (rows g) (Cy + d.2)))
    as (v & Hv & Hb).
  { split; apply wrap_range; lia. }
  exists v. split; [done|]. split; [|done].
  unfold cellValue. rewrite <- !wrap_mod by lia. by rewrite Hv.
Qed.

Lemma torusSum_nonneg ns :
  Forall (λ d : Z * Z, -1 ≤ d.1 ≤ 1 ∧ -1 ≤ d.2 ≤ 1) ns →
  0 ≤ torusSum g Cx Cy ns ≤ Z.of_nat (length ns).
Proof.
  induction 1 as [|d ns Hd _ IH]; simpl; [lia|].
  destruct (neighbour_read d Hd) as (v & _ & -> & Hv). lia.
Qed.

(** The loop with early exit returns the plain sum capped at
    [OVERPOPULATION + 1]. *)
Lemma neighboursLoop_capped ns count :
  Forall (λ d : Z * Z, -1 ≤ d.1 ≤ 1 ∧ -1 ≤ d.2 ≤ 1) ns →
  0 ≤ count ≤ 4 →
  neighboursLoop g Cx Cy ns count
  = Some (Z.min 4 (count + torusSum g Cx Cy ns)).
Proof.
  intros Hns. revert count.
  induction Hns as [|d ns Hd Hns IH]; intros count Hcount; simpl.
  - f_equal. lia.
  - assert (Hsum := torusSum_nonneg ns Hns).
    destruct (neighbour_read d Hd) as (v & Hread & Hval & Hv).
    unfold BREAKPOINTS.OVERPOPULATION. case_decide.
    + f_equal. rewrite Hval. lia.
    + rewrite Hread. simpl. rewrite IH by lia. f_equal. rewrite Hval. lia.
Qed.

Lemma getNeighboursCount_capped :
  getNeighboursCount g Cx Cy = Some (Z.min 4 (fullNeighboursCount g Cx Cy)).
Proof.
  unfold getNeighboursCount, fullNeighboursCount.
  rewrite neighboursLoop_capped; [done | apply NEIGHBOURS_offsets | lia].
Qed.

Lemma fullNeighboursCount_range : 0 ≤ fullNeighboursCount g Cx Cy ≤ 8.
Proof. apply (torusSum_nonneg NEIGHBOURS), NEIGHBOURS_offsets. Qed.
End Counting.

(** ** The rule *)

Lemma nextState_capped s n : nextState s (Z.min 4 n) = nextState s n.
Proof.
  unfold nextState, BREAKPOINTS.OVERPOPULATION, BREAKPOINTS.UNDERPOPULATION,
    BREAKPOINTS.NEWBORN.
  destruct (truthy s); simpl; repeat case_bool_decide; simpl; try done; lia.
Qed.

Lemma nextState_binary s n : s = 0 ∨ s = 1 → nextState s n = 0 ∨ nextState s n = 1.
Proof.
  intros [-> | ->]; unfold nextState; simpl;
    repeat case_bool_decide; simpl; tauto.
Qed.

Lemma nextState_table s n : s = 0 ∨ s = 1 → nextState s n = lifeTable s n.
Proof.
  unfold nextState, lifeTable, BREAKPOINTS.OVERPOPULATION,
    BREAKPOINTS.UNDERPOPULATION, BREAKPOINTS.NEWBORN.
  intros [-> | ->]; simpl; repeat case_bool_decide; repeat case_decide;
    simpl; try done; lia.
Qed.

Lemma getCellState_inv g x y :
  fieldInv g → inGrid g x y →
  ∃ s c, getCellState g x y = Some s ∧ readCell g y x = Some c
         ∧ s = nextState c (fullNeighboursCount g x y)
         ∧ (c = 0 ∨ c = 1) ∧ (s = 0 ∨ s = 1).
Proof.
  intros Hinv Hin. destruct (inv_cell g Hinv x y Hin) as (c & Hc & Hb).
  exists (nextState c (fullNeighboursCount g x y)), c.
  unfold getCellState. rewrite getNeighboursCount_capped by done.
  simpl. rewrite Hc. simpl. rewrite nextState_capped.
  repeat split; try done. by apply nextState_binary.
Qed.

(** ** A fresh field *)

Lemma lookup_constant_map {V} (v : V) (l : list Z) (k : Z) :
  (list_to_map ((λ i, (i, v)) <$> l) : gmap Z V) !! k
  = if decide (k ∈ l) then Some v else None.
Proof.
  induction l as [|i l IH]; [apply lookup_empty|].
  rewrite fmap_cons, list_to_map_cons. cbn [fst snd].
  rewrite lookup_insert. destruct (decide (i = k)) as [->|Hne].
  - rewrite decide_True; [done|]. apply elem_of_cons. by left.
  - rewrite IH. destruct (decide (k ∈ l)) as [Hin|Hin].
    + rewrite decide_True; [done|]. apply elem_of_cons. by right.
    + rewrite decide_False; [done|]. rewrite elem_of_cons.
      intros [?|?]; [congruence | done].
Qed.

Lemma newArray_lookup n v row x :
  newArray n v = Some row →
  row !! x = if decide (0 ≤ x < n) then Some v else None.
Proof.
  unfold newArray. case_decide; [|done]. intros [= <-].
  rewrite lookup_constant_map.
  destruct (decide (x ∈ seqZ 0 n)) as [Hin|Hin]; rewrite elem_of_seqZ in Hin.
  - rewrite decide_True; [done | lia].
  - rewrite decide_False; [done | lia].
Qed.

Lemma generateField_rows g row (ys : list Z) :
  newArray (cols g) 0 = Some row →
  mapM (λ y, row ← newArray (cols g) 0; Some (y, row)) ys
  = Some ((λ y, (y, row)) <$> ys).
Proof.
  intros Hrow. induction ys as [|y ys IH]; [done|].
  cbn. rewrite Hrow in IH |- *. cbn in IH |- *. by rewrite IH.
Qed.

Lemma generateField_valid g f : generateField g = Some f → validDims g.
Proof.
  unfold generateField, validDims. case_decide as Hr; [|done].
  intros Hf. split; [done|].
  destruct (decide (rows g = 0)) as [|Hne]; [by left | right].
  destruct (seqZ 0 (rows g)) as [|y ys] eqn:Hys.
  - apply (f_equal length) in Hys. rewrite length_seqZ in Hys. cbn in Hys. lia.
  - cbn in Hf. unfold newArray in Hf. by case_decide.
Qed.

Lemma generateField_spec g :
  validDims g →
  ∃ f, generateField g = Some f
       ∧ (∀ y, is_Some (f !! y) ↔ 0 ≤ y < rows g)
       ∧ (∀ x y, f !! y ≫= (λ row, row !! x)
                 = if decide (inGrid g x y) then Some 0 else None).
Proof.
  intros [Hr [Hz | Hc]]; unfold generateField; rewrite decide_True by done.
  { rewrite Hz. cbn. eexists. split; [done|]. split.
    - intros y. rewrite list_to_map_nil, lookup_empty.
      split; [by intros [? ?] | lia].
    - intros x y. rewrite list_to_map_nil, lookup_empty. cbn.
      rewrite decide_False; [done|]. unfold inGrid. lia. }
  assert (∃ row, newArray (cols g) 0 = Some row) as [row Hrow].
  { unfold newArray. rewrite decide_True by done. eauto. }
  rewrite (generateField_rows g row) by done. cbn.
  eexists. split; [done|]. split.
  - intros y. rewrite lookup_constant_map.
    destruct (decide (y ∈ seqZ 0 (rows g))) as [Hin|Hin];
      rewrite elem_of_seqZ in Hin.
    + split; [lia | eauto].
    + split; [by intros [? ?] | lia].
  - intros x y. rewrite lookup_constant_map. unfold inGrid.
    destruct (decide (y ∈ seqZ 0 (rows g))) as [Hin|Hin];
      rewrite elem_of_seqZ in Hin; cbn.
    + rewrite (newArray_lookup _ _ _ x Hrow).
      repeat case_decide; try done; lia.
    + rewrite decide_False; [done | lia].
Qed.

(** [init] and [reset] always succeed on valid dimensions and leave an
    all-dead, idle game that listens to the mouse. *)
Lemma init_spec g :
  validDims g →
  ∃ g', init g = Some g' ∧ fieldInv g'
        ∧ cols g' = cols g ∧ rows g' = rows g
        ∧ (∀ x y, inGrid g x y → readCell g' y x = Some 0)
        ∧ isRunning g' = false ∧ aborted g' = false
        ∧ alerts g' = alerts g ∧ timers g' = timers g ∧ frames g' = frames g
        ∧ timeOut g' = timeOut g ∧ frame g' = frame g
        ∧ isSetting g' = isSetting g.
Proof.
  intros Hd. unfold init.
  set (g1 := if aborted (set_isRunning false g)
             then set_aborted false (set_isRunning false g)
             else set_isRunning false g).
  assert (Hc1 : cols g1 = cols g) by (subst g1; by destruct (aborted _)).
  assert (Hr1 : rows g1 = rows g) by (subst g1; by destruct (aborted _)).
  destruct (generateField_spec g1) as (f & Hf & Hdom & Hcell);
    [unfold validDims; by rewrite Hc1, Hr1 |].
  rewrite Hf. cbn. eexists. split; [done|].
  assert (Hread : ∀ x y, inGrid g x y →
            readCell (drawGrid (set_hasSignsOfLife true (set_field f g1))) y x
            = Some 0).
  { intros x y Hin. unfold readCell. cbn. rewrite Hcell.
    rewrite decide_True; [done|]. unfold inGrid. by rewrite Hc1, Hr1. }
  split.
  { apply fieldInv_intro; unfold validDims; cbn; rewrite ?Hc1, ?Hr1; try done.
    - intros y. by rewrite Hdom, Hr1.
    - intros x y Hin. left. apply Hread. unfold inGrid in *. cbn in Hin.
      by rewrite Hc1, Hr1 in Hin. }
  cbn. subst g1. destruct (aborted (set_isRunning false g)) eqn:Hab;
    cbn in *; repeat split; try done.
Qed.

Lemma reset_spec g :
  validDims g →
  ∃ g', reset g = Some g' ∧ fieldInv g'
        ∧ cols g' = cols g ∧ rows g' = rows g
        ∧ (∀ x y, inGrid g x y → readCell g' y x = Some 0)
        ∧ isRunning g' = false ∧ aborted g' = false
        ∧ alerts g' = alerts g
        ∧ (∀ id, timeOut g = Some id → id ∉ timers g')
        ∧ (∀ id, frame g = Some id → id ∉ frames g')
        ∧ timers g' ⊆ timers g ∧ frames g' ⊆ frames g.
Proof.
  intros Hd. unfold reset.
  set (g1 := set_canvas _ _).
  assert (Hg1 : cols g1 = cols g ∧ rows g1 = rows g ∧ alerts g1 = alerts g
                ∧ timers g1 = (match timeOut g with
                               | Some id => timers g ∖ {[id]} | None => timers g end)
                ∧ frames g1 = (match frame g with
                               | Some id => frames g ∖ {[id]} | None => frames g end)).
  { subst g1. unfold clearTimeout, cancelAnimationFrame.
    destruct (timeOut g); cbn; destruct (frame g); cbn; done. }
  destruct Hg1 as (Hc1 & Hr1 & Ha1 & Ht1 & Hf1).
  destruct (init_spec g1) as (g' & Hinit & Hinv & Hc' & Hr' & Hz & Hrun & Hab
                              & Hal & Ht & Hf & _);
    [unfold validDims; by rewrite Hc1, Hr1 |].
  exists g'. split; [done|]. split; [done|].
  rewrite Hc', Hr', Hal, Ht, Hf, Hc1, Hr1, Ha1, Ht1, Hf1.
  repeat split; try done.
  - intros x y Hin. apply Hz. unfold inGrid in *. by rewrite Hc1, Hr1.
  - intros id ->. rewrite elem_of_difference, elem_of_singleton. tauto.
  - intros id ->. rewrite elem_of_difference, elem_of_singleton. tauto.
  - destruct (timeOut g); [apply subseteq_difference_l|]; done.
  - destruct (frame g); [apply subseteq_difference_l|]; done.
Qed.

(** ** The scan *)

Lemma elem_of_gridCells g p : p ∈ gridCells g ↔ inGrid g p.1 p.2.
Proof.
  unfold gridCells, inGrid. rewrite list_elem_of_bind. split.
  - intros (x & Hp & Hx). apply list_elem_of_fmap in Hp as (y & -> & Hy).
    rewrite elem_of_seqZ in Hx, Hy. simpl. lia.
  - intros [Hx Hy]. exists p.1. split.
    + apply list_elem_of_fmap. exists p.2. split; [by destruct p|].
      apply elem_of_seqZ. lia.
    + apply elem_of_seqZ. lia.
Qed.

Lemma scanCell_spec g p acc :
  fieldInv g → inGrid g p.1 p.2 →
  scanCell g p.1 p.2 acc
  = Some (acc.1 ++ changeOf g p, acc.2 || truthyOpt (getCellState g p.1 p.2)).
Proof.
  intros Hinv Hin.
  destruct (getCellState_inv g p.1 p.2 Hinv Hin) as (s & c & Hs & Hc & _).
  unfold scanCell, changeOf. rewrite Hs, Hc. cbn. f_equal. f_equal.
  - case_decide; [done | by rewrite app_nil_r].
  - by destruct (truthy s), (acc.2).
Qed.

Lemma scan_cells g ps acc :
  fieldInv g → (∀ p, p ∈ ps → inGrid g p.1 p.2) →
  forM (λ acc p, scanCell g p.1 p.2 acc) ps acc
  = Some (acc.1 ++ diffOf g ps, acc.2 || lifeOf g ps).
Proof.
  intros Hinv. revert acc. induction ps as [|p ps IH]; intros acc Hps.
  - cbn. rewrite app_nil_r, orb_false_r. by destruct acc.
  - rewrite forM_cons, scanCell_spec; [|done|apply Hps; by left].
    cbn [mbind option_bind].
    rewrite IH by (intros q Hq; apply Hps; by right). cbn.
    by rewrite <- app_assoc, orb_assoc.
Qed.

Lemma scanField_spec g :
  fieldInv g →
  scanField g = Some (diffOf g (gridCells g), lifeOf g (gridCells g)).
Proof.
  intros Hinv. unfold scanField.
  rewrite (forM_nested (scanCell g)).
  rewrite scan_cells; [done | done |].
  intros p. apply elem_of_gridCells.
Qed.

Lemma elem_of_changeOf g p c :
  c ∈ changeOf g p ↔
  p = (cx c, cy c) ∧ getCellState g (cx c) (cy c) = Some (cstate c)
  ∧ ∃ cur, readCell g (cy c) (cx c) = Some cur ∧ cstate c ≠ cur.
Proof.
  unfold changeOf. destruct p as [x y]. cbn [fst snd]. split.
  - destruct (getCellState g x y) as [s|] eqn:Hs;
      [|by intros ?%elem_of_nil].
    destruct (readCell g y x) as [cur|] eqn:Hc; [|by intros ?%elem_of_nil].
    case_decide; [|by intros ?%elem_of_nil].
    intros ->%list_elem_of_singleton. cbn. eauto.
  - intros ([= -> ->] & Hs & cur & Hc & Hne). rewrite Hs, Hc.
    rewrite decide_True by done. apply list_elem_of_singleton. by destruct c.
Qed.

Lemma elem_of_diffOf g ps c :
  c ∈ diffOf g ps ↔
  (cx c, cy c) ∈ ps ∧ getCellState g (cx c) (cy c) = Some (cstate c)
  ∧ ∃ cur, readCell g (cy c) (cx c) = Some cur ∧ cstate c ≠ cur.
Proof.
  unfold diffOf. rewrite list_elem_of_bind. split.
  - intros (p & Hc & Hp). apply elem_of_changeOf in Hc as (-> & ?). done.
  - intros (Hp & H). exists (cx c, cy c). split; [|done].
    by apply elem_of_changeOf.
Qed.

Lemma truthyOpt_true o : truthyOpt o = true ↔ ∃ s, o = Some s ∧ s ≠ 0.
Proof.
  destruct o as [s|]; cbn; unfold truthy.
  - case_bool_decide; cbn; split; try done.
    + intros (? & [= <-] & ?). done.
    + eauto.
  - split; [done | by intros (? & ? & ?)].
Qed.

Lemma lifeOf_true g ps :
  lifeOf g ps = true ↔
  ∃ p, p ∈ ps ∧ ∃ s, getCellState g p.1 p.2 = Some s ∧ s ≠ 0.
Proof.
  unfold lifeOf. rewrite existsb_exists. split.
  - intros (p & Hp & Ht). exists p. split; [by apply list_elem_of_In|].
    by apply truthyOpt_true.
  - intros (p & Hp & Ht). exists p. split; [by apply list_elem_of_In|].
    by apply truthyOpt_true.
Qed.

(** ** The apply phase *)

Lemma fieldSet_shape g y x v g' :
  fieldSet g y x v = Some g' →
  ∃ f, g' = set_canvas (canvas g ++ [DrawCell (x * CELL_SIZE) (y * CELL_SIZE)
                                       (cellStateOf (Some v))])
                       (set_field f g).
Proof.
  intros Hset. destruct (fieldSet_frame _ _ _ _ _ Hset) as
    (? & ? & ? & ? & ? & ? & ? & ? & ? & ? & ? & ? & ?).
  exists (field g'). destruct g, g'. cbn in *. by subst.
Qed.

Lemma applyChanges_spec cs g :
  (∀ c, c ∈ cs → is_Some (field g !! cy c)) →
  ∃ g', forM applyChange cs g = Some g'
        ∧ (∃ f, g' = set_canvas (canvas g ++ (drawOf <$> cs)) (set_field f g))
        ∧ (∀ y, is_Some (field g' !! y) ↔ is_Some (field g !! y))
        ∧ (∀ x y, (∀ c, c ∈ cs → ¬ (cx c = x ∧ cy c = y)) →
                  readCell g' y x = readCell g y x)
        ∧ (∀ x y v, (∃ c, c ∈ cs ∧ cx c = x ∧ cy c = y) →
                    (∀ c, c ∈ cs → cx c = x → cy c = y → cstate c = v) →
                    readCell g' y x = Some v).
Proof.
  revert g. induction cs as [|c cs IH]; intros g Hrows.
  - exists g. split; [done|]. split; [|split; [done|split; [done|]]].
    + exists (field g). destruct g. cbn. by rewrite app_nil_r.
    + intros x y v (c & Hc & _). by apply elem_of_nil in Hc.
  - destruct (fieldSet_is_Some g (cy c) (cx c) (cstate c)) as [g1 Hg1];
      [apply Hrows; by left|].
    destruct (IH g1) as (g' & Hrun & [f Hshape] & Hdom & Hother & Hhit).
    { intros c' Hc'. rewrite (fieldSet_row _ _ _ _ _ _ Hg1).
      apply Hrows. by right. }
    exists g'. split; [rewrite forM_cons; unfold applyChange; by rewrite Hg1|].
    split; [|split; [|split]].
    + destruct (fieldSet_shape _ _ _ _ _ Hg1) as [f1 ->].
      exists f. rewrite Hshape. destruct g. cbn.
      by rewrite <- app_assoc.
    + intros y. by rewrite Hdom, (fieldSet_row _ _ _ _ _ _ Hg1).
    + intros x y Hno. rewrite Hother by (intros c' Hc'; apply Hno; by right).
      rewrite (readCell_fieldSet _ _ _ _ _ y x Hg1).
      rewrite decide_False; [done|].
      intros [-> ->]. apply (Hno c); [by left | done].
    + intros x y v Hex Hall.
      destruct (decide (Exists (λ c', cx c' = x ∧ cy c' = y) cs)) as [He|He].
      * apply Hhit.
        -- apply Exists_exists in He as (c' & Hc' & ?). by exists c'.
        -- intros c' Hc'. apply Hall. by right.
      * rewrite Hother.
        2:{ intros c' Hc' Hxy. apply He, Exists_exists. by exists c'. }
        rewrite (readCell_fieldSet _ _ _ _ _ y x Hg1).
        destruct Hex as (c' & Hc' & Hx & Hy).
        apply elem_of_cons in Hc' as [-> | Hc'].
        -- rewrite decide_True by done. f_equal. apply Hall; [by left|done..].
        -- exfalso. apply He, Exists_exists. by exists c'.
Qed.

(** [updateField] once the scan is known. *)
Lemma updateField_unfold g :
  fieldInv g →
  updateField g =
    let cs := diffOf g (gridCells g) in
    let g1 := set_hasSignsOfLife (lifeOf g (gridCells g)) g in
    g2 ← (if decide (length cs = 0%nat)
          then
            let g3 := alert (if lifeOf g (gridCells g) then harmonyMessage
                             else extinctMessage)
                        (clearTimeout (timeOut g)
                           (cancelAnimationFrame (frame g)
                              (set_isRunning false g1))) in
            if negb (lifeOf g (gridCells g)) then reset g3 else Some g3
          else Some g1);
    forM applyChange cs g2.
Proof.
  intros Hinv. unfold updateField. rewrite scanField_spec by done. cbn.
  case_decide; [|done].
  destruct (frame g); cbn; destruct (timeOut g); cbn; done.
Qed.

(** ** One generation, as a whole *)

Lemma fieldInv_ext g h :
  cols h = cols g → rows h = rows g → field h = field g →
  fieldInv g → fieldInv h.
Proof.
  unfold fieldInv, validDims, binaryCell, readCell.
  by intros -> -> ->.
Qed.

Lemma NoDup_gridCells g : NoDup (gridCells g).
Proof.
  unfold gridCells. apply NoDup_bind.
  - intros x1 x2 p _ _ H1 H2.
    apply list_elem_of_fmap in H1 as (y1 & -> & _).
    apply list_elem_of_fmap in H2 as (y2 & [= -> _] & _). done.
  - intros x _. apply NoDup_fmap_2; [|apply NoDup_seqZ].
    by intros y1 y2 [= ->].
  - apply NoDup_seqZ.
Qed.

Section Generation.
Context (g : GameOfLife) (Hinv : fieldInv g).

Local Abbreviation changes := (diffOf g (gridCells g)).
Local Abbreviation life := (lifeOf g (gridCells g)).

Lemma change_recorded c :
  c ∈ changes →
  inGrid g (cx c) (cy c) ∧ getCellState g (cx c) (cy c) = Some (cstate c)
  ∧ readCell g (cy c) (cx c) ≠ Some (cstate c).
Proof.
  intros (Hp & Hs & cur & Hcur & Hne)%elem_of_diffOf.
  apply elem_of_gridCells in Hp. split; [done|]. split; [done|].
  rewrite Hcur. congruence.
Qed.

Lemma change_row c : c ∈ changes → is_Some (field g !! cy c).
Proof.
  intros (Hin & _)%change_recorded. apply (inv_row g Hinv), Hin.
Qed.

Lemma unchanged_cell x y :
  inGrid g x y → (∀ c, c ∈ changes → ¬ (cx c = x ∧ cy c = y)) →
  getCellState g x y = readCell g y x.
Proof.
  intros Hin Hno.
  destruct (getCellState_inv g x y Hinv Hin) as (s & c & Hs & Hc & _).
  rewrite Hs, Hc. destruct (decide (s = c)) as [->|Hne]; [done|].
  destruct (Hno (mkChange x y s)); [|done].
  apply elem_of_diffOf. cbn. split; [by apply elem_of_gridCells|]. eauto.
Qed.

Lemma lifeless_cell x y :
  life = false → inGrid g x y → getCellState g x y = Some 0.
Proof.
  intros Hlife Hin.
  destruct (getCellState_inv g x y Hinv Hin) as (s & c & Hs & _).
  rewrite Hs. f_equal. destruct (decide (s = 0)) as [|Hne]; [done|].
  assert (life = true); [|congruence].
  apply lifeOf_true. exists (x, y). split; [by apply elem_of_gridCells|].
  eauto.
Qed.

(** The state in which [updateField] leaves the game when the scan found
    no change, before a possible [reset]. *)
Lemma updateField_fixed :
  changes = [] →
  updateField g =
    let g3 := alert (if life then harmonyMessage else extinctMessage)
                (clearTimeout (timeOut g)
                   (cancelAnimationFrame (frame g)
                      (set_isRunning false (set_hasSignsOfLife life g)))) in
    if negb life then reset g3 else Some g3.
Proof.
  intros Hnil. rewrite updateField_unfold by done. cbv zeta.
  rewrite Hnil. cbn [length].
  rewrite decide_True by done.
  destruct life; cbn [negb]; [done|]. by destruct (reset _).
Qed.

Lemma updateField_changes :
  changes ≠ [] →
  updateField g = forM applyChange changes (set_hasSignsOfLife life g).
Proof.
  intros Hne. rewrite updateField_unfold by done. cbv zeta.
  rewrite decide_False; [done|].
  by destruct (diffOf g (gridCells g)).
Qed.

Lemma halted_dims :
  validDims (alert (if life then harmonyMessage else extinctMessage)
               (clearTimeout (timeOut g)
                  (cancelAnimationFrame (frame g)
                     (set_isRunning false (set_hasSignsOfLife life g))))).
Proof.
  assert (Hd := inv_dims g Hinv). unfold validDims in *.
  by destruct (timeOut g), (frame g).
Qed.

Lemma halted_field :
  field (alert (if life then harmonyMessage else extinctMessage)
           (clearTimeout (timeOut g)
              (cancelAnimationFrame (frame g)
                 (set_isRunning false (set_hasSignsOfLife life g)))))
  = field g.
Proof. by destruct (timeOut g), (frame g). Qed.

(** [updateField] always returns, and what it leaves in every cell of
    the grid is the cell's next state computed on the field it found. *)
Lemma updateField_next :
  ∃ g', updateField g = Some g' ∧ fieldInv g'
        ∧ cols g' = cols g ∧ rows g' = rows g
        ∧ ∀ x y, inGrid g x y → readCell g' y x = getCellState g x y.
Proof.
  assert (Hgoal : ∃ g', updateField g = Some g'
            ∧ validDims g'
            ∧ (∀ y, is_Some (field g' !! y) ↔ 0 ≤ y < rows g)
            ∧ cols g' = cols g ∧ rows g' = rows g
            ∧ ∀ x y, inGrid g x y → readCell g' y x = getCellState g x y).
  { destruct (decide (changes = [])) as [Hnil|Hne].
    - rewrite updateField_fixed by done. cbv zeta.
      destruct life eqn:Hlife; cbn [negb].
      + eexists. split; [done|].
        assert (Hf := halted_field). assert (Hd := halted_dims).
        rewrite Hlife in Hf, Hd. split; [done|].
        split; [intros y; rewrite Hf; by apply inv_row|].
        split; [by destruct (timeOut g), (frame g)|].
        split; [by destruct (timeOut g), (frame g)|].
        intros x y Hin. rewrite unchanged_cell; [|done|].
        * unfold readCell. by rewrite Hf.
        * intros c Hc. rewrite Hnil in Hc. by apply elem_of_nil in Hc.
      + assert (Hd := halted_dims). rewrite Hlife in Hd.
        destruct (reset_spec _ Hd)
          as (g' & Hreset & Hinv' & Hc' & Hr' & Hz & _).
        assert (Hcr : cols g' = cols g ∧ rows g' = rows g).
        { rewrite Hc', Hr'. by destruct (timeOut g), (frame g). }
        destruct Hcr as [Hc Hr].
        exists g'. split; [done|]. split; [by apply inv_dims|].
        split; [intros y; rewrite <- Hr; by apply inv_row|].
        split; [done|]. split; [done|].
        intros x y Hin. rewrite lifeless_cell by done. apply Hz.
        unfold inGrid in *. by destruct (timeOut g), (frame g).
    - rewrite updateField_changes by done.
      destruct (applyChanges_spec changes (set_hasSignsOfLife life g))
        as (g' & Hrun & [f Hshape] & Hdom & Hother & Hhit).
      { intros c Hc. cbn. by apply change_row. }
      exists g'. split; [done|].
      assert (Hc : cols g' = cols g) by (by subst g').
      assert (Hr : rows g' = rows g) by (by subst g').
      split; [unfold validDims; rewrite Hc, Hr; by apply inv_dims|].
      split; [intros y; rewrite Hdom; cbn; by apply inv_row|].
      split; [done|]. split; [done|].
      intros x y Hin.
      destruct (decide (Exists (λ c, cx c = x ∧ cy c = y) changes))
        as [He|He].
      + apply Exists_exists in He as (c & Hc0 & Hx & Hy).
        destruct (getCellState_inv g x y Hinv Hin) as (s & _ & Hs & _).
        rewrite Hs. apply Hhit; [by exists c|].
        intros c' Hc' Hx' Hy'.
        apply change_recorded in Hc' as (_ & Hs' & _).
        rewrite Hx', Hy', Hs in Hs'. congruence.
      + rewrite Hother.
        2:{ intros c Hc0 Hxy. apply He, Exists_exists. by exists c. }
        symmetry. apply unchanged_cell; [done|].
        intros c Hc0 Hxy. apply He, Exists_exists. by exists c. }
  destruct Hgoal as (g' & Hup & Hd & Hdom & Hc & Hr & Hcell).
  exists g'. split; [done|]. split; [|done].
  apply fieldInv_intro; [done | by intros y; rewrite Hdom, Hr |].
  intros x y Hin. unfold inGrid in Hin. rewrite Hc, Hr in Hin.
  unfold binaryCell. rewrite Hcell by done.
  destruct (getCellState_inv g x y Hinv Hin) as (s & _ & -> & _ & _ & _ & [-> | ->]);
    tauto.
Qed.
End Generation.

(** ** Painting *)

Lemma cell_of_pixel (a n : Z) :
  0 ≤ a < n * CELL_SIZE → 0 ≤ a `div` CELL_SIZE < n.
Proof.
  unfold CELL_SIZE. intros Ha. split.
  - apply Z.div_pos; lia.
  - apply Z.div_lt_upper_bound; lia.
Qed.

Lemma cell_of_pixel_right (a n : Z) :
  a >= n * CELL_SIZE → a `div` CELL_SIZE >= n.
Proof.
  unfold CELL_SIZE. intros Ha. apply Z.le_ge, Z.div_le_lower_bound; lia.
Qed.

Lemma cell_of_pixel_left (a : Z) : a < 0 → a `div` CELL_SIZE < 0.
Proof. unfold CELL_SIZE. intros Ha. apply Z.div_lt_upper_bound; lia. Qed.

Lemma setFirstGen_ignored g e :
  buttons e ≠ 1 ∨ ¬ (0 ≤ offsetY e < rows g * CELL_SIZE) →
  setFirstGen g e = Some g.
Proof.
  intros H. unfold setFirstGen, canvas_height.
  rewrite decide_True; [done|]. lia.
Qed.

Lemma setFirstGen_painted g e :
  fieldInv g → buttons e = 1 → 0 ≤ offsetY e < rows g * CELL_SIZE →
  ∃ g', setFirstGen g e = Some g'
        ∧ fieldSet g (offsetY e `div` CELL_SIZE) (offsetX e `div` CELL_SIZE)
            (Z.b2z (isSetting g)) = Some g'.
Proof.
  intros Hinv Hb Hy. unfold setFirstGen, canvas_height.
  rewrite decide_False by lia. cbn.
  destruct (fieldSet_is_Some g (offsetY e `div` CELL_SIZE)
              (offsetX e `div` CELL_SIZE) (Z.b2z (isSetting g))) as [g' Hg'].
  { apply (inv_row g Hinv). by apply cell_of_pixel. }
  eauto.
Qed.

Lemma setFirstGen_inv g e :
  fieldInv g →
  ∃ g', setFirstGen g e = Some g' ∧ fieldInv g' ∧ isSetting g' = isSetting g.
Proof.
  intros Hinv.
  destruct (decide (buttons e ≠ 1 ∨ ¬ (0 ≤ offsetY e < rows g * CELL_SIZE)))
    as [Hig|Hp].
  - exists g. by rewrite setFirstGen_ignored.
  - destruct (setFirstGen_painted g e) as (g' & -> & Hset); [done|lia..|].
    exists g'. split; [done|]. split.
    + eapply fieldSet_inv; [done| |done]. destruct (isSetting g); cbn; lia.
    + by destruct (fieldSet_frame _ _ _ _ _ Hset) as (_ & _ & -> & _).
Qed.

Lemma setMode_inv g e :
  fieldInv g →
  ∃ g', setMode g e = Some g' ∧ fieldInv g'
        ∧ isSetting g'
          = negb (truthyOpt (readCell g (offsetY e `div` CELL_SIZE)
                                        (offsetX e `div` CELL_SIZE))).
Proof.
  intros Hinv. unfold setMode, getCellCoords.
  set (g1 := set_isSetting _ g).
  destruct (setFirstGen_inv g1 e) as (g' & Hg' & Hinv' & Hset).
  { by apply (fieldInv_ext g). }
  exists g'. by rewrite Hset.
Qed.


(** ** The event loop *)

Lemma render_inv g :
  fieldInv g → ∃ g', render g = Some g' ∧ fieldInv g'.
Proof.
  intros Hinv. unfold render. destruct (isRunning g); cbn; [|eauto].
  destruct (updateField_next g Hinv) as (g' & -> & Hinv' & _). cbn.
  eexists. split; [done|]. by apply (fieldInv_ext g').
Qed.

Lemma step_inv g ev :
  fieldInv g → ∃ g', step g ev = Some g' ∧ fieldInv g'.
Proof.
  intros Hinv. destruct ev as [e|e| | |id|id]; cbn.
  - destruct (aborted g); [eauto|].
    destruct (setFirstGen_inv g e Hinv) as (g' & ? & ? & _). eauto.
  - destruct (aborted g); [eauto|].
    destruct (setMode_inv g e Hinv) as (g' & ? & ? & _). eauto.
  - unfold start. destruct (isRunning g); [eauto|].
    apply render_inv. by apply (fieldInv_ext g).
  - destruct (reset_spec g (inv_dims g Hinv)) as (g' & ? & ? & _). eauto.
  - case_decide; [|eauto]. eexists. split; [done|].
    by apply (fieldInv_ext g).
  - case_decide; [|eauto]. apply render_inv. by apply (fieldInv_ext g).
Qed.

Lemma run_inv evs g :
  fieldInv g → ∃ g', run g evs = Some g' ∧ fieldInv g'.
Proof.
  revert g. induction evs as [|ev evs IH]; intros g Hinv; [by exists g|].
  destruct (step_inv g ev Hinv) as (g1 & Hstep & Hinv1).
  destruct (IH g1 Hinv1) as (g' & Hrun & Hinv').
  exists g'. split; [|done]. unfold run in *. by rewrite forM_cons, Hstep.
Qed.

(** While the game is not running, the browser's queues can only drain:
    no generation is computed, nothing is drawn and nothing is reported. *)
Lemma queue_idle evs g :
  isRunning g = false → Forall isQueueEvent evs →
  ∃ g', run g evs = Some g' ∧ isRunning g' = false ∧ field g' = field g
        ∧ alerts g' = alerts g ∧ canvas g' = canvas g.
Proof.
  intros Hrun Hevs. revert g Hrun.
  induction Hevs as [|ev evs Hev _ IH]; intros g Hrun; [by exists g|].
  assert (∃ g1, step g ev = Some g1 ∧ isRunning g1 = false
                ∧ field g1 = field g ∧ alerts g1 = alerts g
                ∧ canvas g1 = canvas g) as (g1 & Hstep & Hrun1 & Hf & Ha & Hc).
  { destruct ev as [e|e| | |id|id]; try done; cbn.
    - case_decide; eexists; (split; [done|]); done.
    - case_decide; [|eexists; (split; [done|]); done].
      unfold render. cbn. rewrite Hrun. cbn.
      eexists; (split; [done|]); done. }
  destruct (IH g1 Hrun1) as (g' & Hg' & ? & ? & ? & ?).
  exists g'. unfold run in *. rewrite forM_cons, Hstep. cbn.
  split; [done|]. repeat split; congruence.
Qed.

(** * The claims *)

(** C1. For every state that satisfies the field invariant, [updateField]
    returns, and it produces exactly the synchronous next generation: the
    scan visits every cell of the [cols] x [rows] grid once, it is a
    function of the state found alone (it records the changes and whether
    there is life before any cell is written), and once the recorded
    changes are applied every cell [(x, y)] of the grid holds
    [getCellState x y] as computed on the field of the prior generation. *)
Theorem updateField_synchronous (g : GameOfLife) :
  fieldInv g →
  ∃ g', updateField g = Some g'
        ∧ NoDup (gridCells g)
        ∧ (∀ x y, (x, y) ∈ gridCells g ↔ inGrid g x y)
        ∧ scanField g = Some (diffOf g (gridCells g), lifeOf g (gridCells g))
        ∧ ∀ x y, inGrid g x y →
                 ∃ s, getCellState g x y = Some s ∧ readCell g' y x = Some s.
Proof.
  intros Hinv.
  destruct (updateField_next g Hinv) as (g' & Hup & _ & _ & _ & Hcell).
  exists g'. split; [done|]. split; [apply NoDup_gridCells|].
  split; [intros x y; apply (elem_of_gridCells g (x, y))|].
  split; [by apply scanField_spec|].
  intros x y Hin.
  destruct (getCellState_inv g x y Hinv Hin) as (s & _ & Hs & _).
  exists s. split; [done|]. by rewrite Hcell.
Qed.

Lemma updateField_synchronous_witness :
  fieldInv blinkerGame5
  ∧ ∃ g', updateField blinkerGame5 = Some g'
          ∧ NoDup (gridCells blinkerGame5)
          ∧ (∀ x y, (x, y) ∈ gridCells blinkerGame5 ↔ inGrid blinkerGame5 x y)
          ∧ scanField blinkerGame5
            = Some (diffOf blinkerGame5 (gridCells blinkerGame5),
                    lifeOf blinkerGame5 (gridCells blinkerGame5))
          ∧ ∀ x y, inGrid blinkerGame5 x y →
                   ∃ s, getCellState blinkerGame5 x y = Some s
                        ∧ readCell g' y x = Some s.
Proof.
  assert (H : fieldInv blinkerGame5).
  { apply (bool_decide_unpack _). vm_compute. exact I. }
  split; [exact H | exact (updateField_synchronous blinkerGame5 H)].
Defined.

(** C2. For every pair (current state, neighbour count) in
    {0,1} x {0..8}, the rule of [getCellState] is the classic B3/S23 one,
    with the thresholds OVERPOPULATION = 3, UNDERPOPULATION = 2 and
    NEWBORN = 3: a live cell dies iff its count is greater than 3 or less
    than 2 (it survives iff the count is 2 or 3), a dead cell becomes alive
    iff its count is exactly 3, and otherwise the state is unchanged. *)
Theorem getCellState_rule_table (s n : Z) :
  s = 0 ∨ s = 1 → 0 ≤ n ≤ 8 →
  BREAKPOINTS.OVERPOPULATION = 3 ∧ BREAKPOINTS.UNDERPOPULATION = 2
  ∧ BREAKPOINTS.NEWBORN = 3
  ∧ nextState s n = lifeTable s n
  ∧ (s = 1 → (nextState s n = 0 ↔ n > 3 ∨ n < 2)
             ∧ (nextState s n = 1 ↔ n = 2 ∨ n = 3))
  ∧ (s = 0 → (nextState s n = 1 ↔ n = 3) ∧ (nextState s n = 0 ↔ n ≠ 3))
  ∧ (¬ (s = 1 ∧ (n > 3 ∨ n < 2)) → ¬ (s = 0 ∧ n = 3) → nextState s n = s)
  ∧ ∀ g x y, readCell g y x = Some s → getNeighboursCount g x y = Some n →
             getCellState g x y = Some (lifeTable s n).
Proof.
  intros Hs Hn. split; [done|]. split; [done|]. split; [done|].
  split; [by apply nextState_table|].
  assert (Hcases :
    (s = 1 → (nextState s n = 0 ↔ n > 3 ∨ n < 2)
             ∧ (nextState s n = 1 ↔ n = 2 ∨ n = 3))
    ∧ (s = 0 → (nextState s n = 1 ↔ n = 3) ∧ (nextState s n = 0 ↔ n ≠ 3))
    ∧ (¬ (s = 1 ∧ (n > 3 ∨ n < 2)) → ¬ (s = 0 ∧ n = 3) → nextState s n = s)).
  { unfold nextState, BREAKPOINTS.OVERPOPULATION, BREAKPOINTS.UNDERPOPULATION,
      BREAKPOINTS.NEWBORN.
    destruct Hs as [-> | ->]; simpl; repeat case_bool_decide; simpl;
      repeat split; intros; try lia; try tauto. }
  destruct Hcases as (H1 & H0 & Hsame).
  split; [done|]. split; [done|]. split; [done|].
  intros g x y Hread Hcount. unfold getCellState.
  rewrite Hcount, Hread. cbn. by rewrite nextState_table.
Qed.

Lemma getCellState_rule_table_witness :
  (1 = 0 ∨ 1 = 1) ∧ 0 ≤ 4 ≤ 8
  ∧ nextState 1 4 = lifeTable 1 4
  ∧ lifeTable 1 4 = 0
  ∧ getCellState fullGame3 1 1 = Some 0.
Proof.
  assert (Hs : 1 = 0 ∨ 1 = 1) by (right; reflexivity).
  assert (Hn : 0 ≤ 4 ≤ 8) by lia.
  destruct (getCellState_rule_table 1 4 Hs Hn)
    as (_ & _ & _ & Htable & _ & _ & _ & Hcell).
  split; [exact Hs|]. split; [exact Hn|]. split; [exact Htable|].
  split; [reflexivity|].
  apply (Hcell fullGame3 1 1); reflexivity.
Defined.

(** C5. For every state that satisfies the field invariant and every cell
    of the grid, [getCellState] applied to the early-exiting neighbour count
    (the loop is left once the running sum exceeds OVERPOPULATION = 3)
    equals [getCellState] applied to the full sum of the 8 neighbours: the
    early exit never changes the outcome of the rule, for a live cell or
    for a dead one. *)
Theorem early_exit_same_state (g : GameOfLife) (x y : Z) :
  fieldInv g → inGrid g x y →
  getCellState g x y = getCellStateFull g x y
  ∧ is_Some (getCellState g x y).
Proof.
  intros Hinv Hin.
  destruct (getCellState_inv g x y Hinv Hin) as (s & c & Hs & Hc & -> & _).
  split; [|by rewrite Hs].
  unfold getCellStateFull. by rewrite Hs, Hc.
Qed.

Lemma early_exit_same_state_witness :
  fieldInv fullGame3 ∧ inGrid fullGame3 1 1
  ∧ getNeighboursCount fullGame3 1 1 = Some 4
  ∧ fullNeighboursCount fullGame3 1 1 = 8
  ∧ getCellState fullGame3 1 1 = getCellStateFull fullGame3 1 1
  ∧ is_Some (getCellState fullGame3 1 1).
Proof.
  assert (H : fieldInv fullGame3).
  { apply (bool_decide_unpack _). vm_compute. exact I. }
  assert (Hin : inGrid fullGame3 1 1).
  { unfold inGrid. cbn. lia. }
  split; [exact H|]. split; [exact Hin|].
  split; [reflexivity|]. split; [reflexivity|].
  exact (early_exit_same_state fullGame3 1 1 H Hin).
Defined.

(** C6, as the code has it. For every state that satisfies the field
    invariant and every cell [(cx, cy)] of the grid, [getNeighboursCount]
    returns the sum of the 8 toroidally wrapped neighbours (the cell itself
    excluded) capped at 4: it is that sum whenever the sum is at most 4, and
    4 otherwise, the loop being left once the count exceeds OVERPOPULATION.
    Each neighbour coordinate below 0 wraps to the dimension minus 1 and
    each one at or above the dimension wraps to 0, which on the offsets
    -1, 0, 1 is the coordinate modulo the dimension. On the 3x3 grid whose
    only live cell is (0,0), the count of (2,2) is 1. *)
Theorem getNeighboursCount_capped_torus_sum (g : GameOfLife) (cx cy : Z) :
  fieldInv g → inGrid g cx cy →
  getNeighboursCount g cx cy = Some (Z.min 4 (fullNeighboursCount g cx cy))
  ∧ (fullNeighboursCount g cx cy ≤ 4 →
     getNeighboursCount g cx cy = Some (fullNeighboursCount g cx cy))
  ∧ 0 ≤ fullNeighboursCount g cx cy ≤ 8
  ∧ length NEIGHBOURS = 8%nat ∧ ((0, 0) ∉ NEIGHBOURS)
  ∧ (∀ d, d ∈ NEIGHBOURS →
          wrap (cols g) (cx + d.1) = (cx + d.1) `mod` cols g
          ∧ wrap (rows g) (cy + d.2) = (cy + d.2) `mod` rows g
          ∧ inGrid g (wrap (cols g) (cx + d.1)) (wrap (rows g) (cy + d.2)))
  ∧ getNeighboursCount cornerGame3 2 2 = Some 1.
Proof.
  intros Hinv Hin.
  assert (Hcap := getNeighboursCount_capped g Hinv cx cy Hin).
  split; [done|]. split.
  { intros Hle. rewrite Hcap. f_equal. lia. }
  split; [by apply fullNeighboursCount_range|].
  split; [apply NEIGHBOURS_not_self|]. split; [apply NEIGHBOURS_not_self|].
  split; [|reflexivity].
  intros d Hd. assert (Hoff := NEIGHBOURS_offsets).
  rewrite Forall_forall in Hoff. destruct (Hoff d Hd) as [H1 H2].
  destruct Hin as [Hx Hy].
  split; [apply wrap_mod; lia|]. split; [apply wrap_mod; lia|].
  split; apply wrap_range; lia.
Qed.

Lemma getNeighboursCount_capped_torus_sum_witness :
  fieldInv cornerGame3 ∧ inGrid cornerGame3 2 2
  ∧ fullNeighboursCount cornerGame3 2 2 = 1
  ∧ getNeighboursCount cornerGame3 2 2
    = Some (Z.min 4 (fullNeighboursCount cornerGame3 2 2)).
Proof.
  assert (H : fieldInv cornerGame3).
  { apply (bool_decide_unpack _). vm_compute. exact I. }
  assert (Hin : inGrid cornerGame3 2 2).
  { unfold inGrid. cbn. lia. }
  split; [exact H|]. split; [exact Hin|]. split; [reflexivity|].
  exact (proj1 (getNeighboursCount_capped_torus_sum cornerGame3 2 2 H Hin)).
Defined.

(** C6 as stated fails: on the 3x3 grid whose cells are all alive, the 8
    wrapped neighbours of (1,1) sum to 8, and [getNeighboursCount] leaves
    its loop after the fourth of them and returns 4. *)
Lemma getNeighboursCount_stops_early :
  fieldInv fullGame3 ∧ inGrid fullGame3 1 1
  ∧ fullNeighboursCount fullGame3 1 1 = 8
  ∧ getNeighboursCount fullGame3 1 1 = Some 4
  ∧ getNeighboursCount fullGame3 1 1
    ≠ Some (fullNeighboursCount fullGame3 1 1).
Proof.
  split; [apply (bool_decide_unpack _); vm_compute; exact I|].
  split; [unfold inGrid; cbn; lia|].
  split; [reflexivity|]. split; [reflexivity|].
  vm_compute. discriminate.
Qed.

(** C3. Whenever the scan of [updateField] finds no change, the run halts:
    the running flag is cleared, the stored timer and animation-frame
    handles are no longer pending, and however the browser's queues drain
    afterwards no further generation is computed and nothing more is
    reported. The outcome is reported exactly once, by one [alert]:
    harmony if [hasLife] is true, extinction if it is false, where
    [hasLife] is true iff at least one cell of the grid is alive in the
    computed next generation. *)
Theorem updateField_fixed_point_halts
    (g : GameOfLife) (changes : list Change) (hasLife : bool) :
  fieldInv g → scanField g = Some (changes, hasLife) → changes = [] →
  ∃ g', updateField g = Some g'
        ∧ isRunning g' = false
        ∧ (∀ id, timeOut g = Some id → id ∉ timers g')
        ∧ (∀ id, frame g = Some id → id ∉ frames g')
        ∧ alerts g'
          = alerts g ++ [if hasLife then harmonyMessage else extinctMessage]
        ∧ (hasLife = true ↔
           ∃ x y, inGrid g x y ∧ getCellState g x y = Some 1)
        ∧ (isRunning g = true → render g = Some (setTimeout g'))
        ∧ ∀ evs, Forall isQueueEvent evs →
                 ∃ g'', run (setTimeout g') evs = Some g''
                        ∧ isRunning g'' = false ∧ field g'' = field g'
                        ∧ alerts g'' = alerts g' ∧ canvas g'' = canvas g'.
Proof.
  intros Hinv Hscan Hnil. rewrite scanField_spec in Hscan by done.
  injection Hscan as Hchanges Hlife. rewrite <- Hchanges in Hnil.
  assert (Hup := updateField_fixed g Hinv Hnil). cbv zeta in Hup.
  rewrite Hlife in Hup.
  assert (Hlive : hasLife = true ↔
            ∃ x y, inGrid g x y ∧ getCellState g x y = Some 1).
  { rewrite <- Hlife, lifeOf_true. split.
    - intros ([x y] & Hp & s & Hs & Hne). apply elem_of_gridCells in Hp.
      exists x, y. split; [done|]. cbn in Hs.
      destruct (getCellState_inv g x y Hinv Hp) as (s' & _ & Hs' & _ & _ & _ & Hb).
      rewrite Hs in Hs'. injection Hs' as <-. rewrite Hs. f_equal. lia.
    - intros (x & y & Hin & Hs). exists (x, y).
      split; [by apply elem_of_gridCells|]. exists 1. done. }
  assert (Hgoal : ∃ g', updateField g = Some g'
            ∧ isRunning g' = false
            ∧ (∀ id, timeOut g = Some id → id ∉ timers g')
            ∧ (∀ id, frame g = Some id → id ∉ frames g')
            ∧ alerts g'
              = alerts g ++ [if hasLife then harmonyMessage else extinctMessage]).
  { destruct hasLife; cbn [negb] in Hup.
    - eexists. split; [exact Hup|].
      destruct (timeOut g) as [t|], (frame g) as [f|]; cbn;
        repeat split; try done; intros id [= <-];
        rewrite elem_of_difference, elem_of_singleton; tauto.
    - assert (Hd := halted_dims g Hinv). rewrite Hlife in Hd.
      destruct (reset_spec _ Hd)
        as (g' & Hreset & _ & _ & _ & _ & Hrun & _ & Hal & Ht & Hf & _).
      exists g'. split; [by rewrite Hup|]. split; [done|].
      split; [|split].
      + intros id Hid. apply Ht.
        destruct (timeOut g) eqn:?, (frame g) eqn:?; cbn; congruence.
      + intros id Hid. apply Hf.
        destruct (timeOut g) eqn:?, (frame g) eqn:?; cbn; congruence.
      + rewrite Hal. by destruct (timeOut g), (frame g). }
  destruct Hgoal as (g' & Hg' & Hrun & Ht & Hf & Hal).
  exists g'. repeat (split; [done|]). split.
  - intros Hr. unfold render. rewrite Hr. cbn. by rewrite Hg'.
  - intros evs Hevs.
    destruct (queue_idle evs (setTimeout g') Hrun Hevs)
      as (g'' & ? & ? & ? & ? & ?).
    by exists g''.
Qed.

Lemma updateField_fixed_point_halts_witness :
  fieldInv blockGame4 ∧ scanField blockGame4 = Some ([], true)
  ∧ ∃ g', updateField blockGame4 = Some g'
          ∧ isRunning g' = false
          ∧ alerts g' = alerts blockGame4 ++ [harmonyMessage].
Proof.
  assert (H : fieldInv blockGame4).
  { apply (bool_decide_unpack _). vm_compute. exact I. }
  assert (Hscan : scanField blockGame4 = Some ([], true)).
  { vm_compute. reflexivity. }
  split; [exact H|]. split; [exact Hscan|].
  destruct (updateField_fixed_point_halts blockGame4 [] true H Hscan eq_refl)
    as (g' & Hup & Hrun & _ & _ & Hal & _).
  exists g'. split; [exact Hup|]. split; [exact Hrun | exact Hal].
Defined.

(** C4, as the code has it. Every write of a cell through the grid
    stores the value and notifies the render collaborator exactly once,
    with [(x * cellSize, y * cellSize)] and the colour of the new state,
    whether or not the value differs from the one held before. *)
Theorem fieldSet_always_notifies (g g' : GameOfLife) (y x v : Z) :
  fieldSet g y x v = Some g' →
  readCell g' y x = Some v
  ∧ canvas g'
    = canvas g ++ [DrawCell (x * CELL_SIZE) (y * CELL_SIZE) (cellStateOf (Some v))]
  ∧ cellStateOf (Some 0) = Some "#fff"%string
  ∧ cellStateOf (Some 1) = Some "#acffaa"%string.
Proof.
  intros Hset. split.
  - rewrite (readCell_fieldSet _ _ _ _ _ y x Hset). by rewrite decide_True.
  - split; [|done].
    by destruct (fieldSet_frame _ _ _ _ _ Hset)
      as (_ & _ & _ & _ & _ & _ & _ & _ & _ & _ & _ & _ & ->).
Qed.

Lemma fieldSet_always_notifies_witness :
  ∃ g', fieldSet emptyGame3 1 2 1 = Some g'
        ∧ readCell g' 1 2 = Some 1
        ∧ canvas g' = canvas emptyGame3 ++ [DrawCell 30 15 (Some "#acffaa"%string)].
Proof.
  assert (H : is_Some (fieldSet emptyGame3 1 2 1)).
  { vm_compute. eexists. reflexivity. }
  destruct H as [g' Hg']. exists g'. split; [exact Hg'|].
  destruct (fieldSet_always_notifies emptyGame3 g' 1 2 1 Hg') as (Hr & Hc & _).
  split; [exact Hr | exact Hc].
Defined.

(** C4 as stated fails: writing 0 to a cell that holds 0 notifies the
    render collaborator all the same, and so does painting one cell twice
    with the same paint value. *)
Lemma fieldSet_same_value_notifies :
  readCell emptyGame3 0 0 = Some 0
  ∧ (∃ g', fieldSet emptyGame3 0 0 0 = Some g'
           ∧ canvas g' = canvas emptyGame3 ++ [DrawCell 0 0 (Some "#fff"%string)]
           ∧ canvas g' ≠ canvas emptyGame3)
  ∧ (∃ g1 g2, step emptyGame3 (MouseMove (mkMouseEvent 0 0 1)) = Some g1
              ∧ readCell g1 0 0 = Some 1 ∧ isSetting g1 = true
              ∧ step g1 (MouseMove (mkMouseEvent 0 0 1)) = Some g2
              ∧ canvas g2 = canvas g1 ++ [DrawCell 0 0 (Some "#acffaa"%string)]).
Proof.
  split; [reflexivity|]. split.
  - eexists. split; [vm_compute; reflexivity|].
    split; [reflexivity|]. vm_compute. discriminate.
  - eexists _, _. split; [vm_compute; reflexivity|].
    split; [reflexivity|]. split; [reflexivity|].
    split; [vm_compute; reflexivity|]. reflexivity.
Qed.

(** C7. For every state that satisfies the field invariant, [updateField]
    records a change entry only for a cell of the grid whose computed next
    state differs from the state it held before the scan, and afterwards
    every cell of the grid that has no entry holds what it held before.
    Unless the colony is found extinct, the apply phase writes exactly the
    recorded cells, in order, each write notifying the render collaborator,
    and leaves every other cell as it was. *)
Theorem updateField_frame (g : GameOfLife) :
  fieldInv g →
  ∃ changes hasLife g',
    scanField g = Some (changes, hasLife) ∧ updateField g = Some g'
    ∧ (∀ c, c ∈ changes →
            inGrid g (cx c) (cy c)
            ∧ getCellState g (cx c) (cy c) = Some (cstate c)
            ∧ readCell g (cy c) (cx c) ≠ Some (cstate c))
    ∧ (∀ x y, inGrid g x y →
              (∀ c, c ∈ changes → ¬ (cx c = x ∧ cy c = y)) →
              readCell g' y x = readCell g y x)
    ∧ (changes ≠ [] ∨ hasLife = true →
       canvas g' = canvas g ++ (drawOf <$> changes)
       ∧ ∀ x y, (∀ c, c ∈ changes → ¬ (cx c = x ∧ cy c = y)) →
                readCell g' y x = readCell g y x).
Proof.
  intros Hinv.
  destruct (updateField_next g Hinv) as (g' & Hup & _ & _ & _ & Hcell).
  exists (diffOf g (gridCells g)), (lifeOf g (gridCells g)), g'.
  split; [by apply scanField_spec|]. split; [done|].
  split; [intros c; by apply change_recorded|]. split.
  { intros x y Hin Hno. rewrite Hcell by done. by apply unchanged_cell. }
  intros Hcase.
  destruct (decide (diffOf g (gridCells g) = [])) as [Hnil|Hne].
  - destruct Hcase as [?|Hlife]; [done|].
    rewrite updateField_fixed, Hlife in Hup by done. cbn in Hup.
    injection Hup as <-. rewrite Hnil.
    split; [|intros x y _; unfold readCell];
      destruct (timeOut g), (frame g); cbn; by rewrite ?app_nil_r.
  - rewrite updateField_changes in Hup by done.
    destruct (applyChanges_spec (diffOf g (gridCells g))
                (set_hasSignsOfLife (lifeOf g (gridCells g)) g))
      as (g2 & Hrun & [f Hshape] & _ & Hother & _).
    { intros c Hc. cbn. by apply change_row. }
    rewrite Hrun in Hup. injection Hup as <-.
    split; [by rewrite Hshape|]. intros x y Hno. by rewrite Hother.
Qed.

Lemma updateField_frame_witness :
  fieldInv blinkerGame5
  ∧ ∃ changes hasLife g',
      scanField blinkerGame5 = Some (changes, hasLife)
      ∧ updateField blinkerGame5 = Some g'
      ∧ (∀ c, c ∈ changes →
              inGrid blinkerGame5 (cx c) (cy c)
              ∧ getCellState blinkerGame5 (cx c) (cy c) = Some (cstate c)
              ∧ readCell blinkerGame5 (cy c) (cx c) ≠ Some (cstate c))
      ∧ (∀ x y, inGrid blinkerGame5 x y →
                (∀ c, c ∈ changes → ¬ (cx c = x ∧ cy c = y)) →
                readCell g' y x = readCell blinkerGame5 y x).
Proof.
  assert (H : fieldInv blinkerGame5).
  { apply (bool_decide_unpack _). vm_compute. exact I. }
  split; [exact H|].
  destruct (updateField_frame blinkerGame5 H)
    as (changes & hasLife & g' & Hscan & Hup & Hrec & Hsame & _).
  exists changes, hasLife, g'.
  split; [exact Hscan|]. split; [exact Hup|].
  split; [exact Hrec | exact Hsame].
Defined.

(** C8, as the code has it. A paint event is ignored if and only if its
    button mask differs from 1 (the primary button held alone) or the
    vertical pointer coordinate is outside [0, rows * cellSize); otherwise
    the cell (floor(offsetX / cellSize), floor(offsetY / cellSize)) is set
    to the paint value, its row being in the grid, with no horizontal
    bounds check: for every such event with offsetX >= cols * cellSize or
    offsetX < 0 the write targets a column outside [0, cols), that is,
    outside the grid. *)
Theorem setFirstGen_paint (g : GameOfLife) (e : MouseEvent) :
  fieldInv g →
  (setFirstGen g e = Some g ↔
   buttons e ≠ 1 ∨ ¬ (0 ≤ offsetY e < rows g * CELL_SIZE))
  ∧ (buttons e = 1 → primaryButtonHeld e)
  ∧ (buttons e = 1 → 0 ≤ offsetY e < rows g * CELL_SIZE →
     let x := offsetX e `div` CELL_SIZE in
     let y := offsetY e `div` CELL_SIZE in
     ∃ g', setFirstGen g e = Some g'
           ∧ readCell g' y x = Some (Z.b2z (isSetting g))
           ∧ (∀ x' y', ¬ (y' = y ∧ x' = x) → readCell g' y' x' = readCell g y' x')
           ∧ canvas g'
             = canvas g ++ [DrawCell (x * CELL_SIZE) (y * CELL_SIZE)
                              (cellStateOf (Some (Z.b2z (isSetting g))))]
           ∧ 0 ≤ y < rows g
           ∧ (offsetX e >= cols g * CELL_SIZE ∨ offsetX e < 0 →
              ¬ (0 ≤ x < cols g) ∧ ¬ inGrid g x y)).
Proof.
  intros Hinv.
  assert (Hpaint : buttons e = 1 → 0 ≤ offsetY e < rows g * CELL_SIZE →
            ∃ g', setFirstGen g e = Some g'
              ∧ readCell g' (offsetY e `div` CELL_SIZE) (offsetX e `div` CELL_SIZE)
                = Some (Z.b2z (isSetting g))
              ∧ (∀ x' y', ¬ (y' = offsetY e `div` CELL_SIZE
                             ∧ x' = offsetX e `div` CELL_SIZE) →
                          readCell g' y' x' = readCell g y' x')
              ∧ canvas g'
                = canvas g ++ [DrawCell (offsetX e `div` CELL_SIZE * CELL_SIZE)
                                 (offsetY e `div` CELL_SIZE * CELL_SIZE)
                                 (cellStateOf (Some (Z.b2z (isSetting g))))]).
  { intros Hb Hy.
    destruct (setFirstGen_painted g e Hinv Hb Hy) as (g' & Hg' & Hset).
    exists g'. split; [done|].
    destruct (fieldSet_frame _ _ _ _ _ Hset)
      as (_ & _ & _ & _ & _ & _ & _ & _ & _ & _ & _ & _ & Hcanvas).
    split; [|split; [|done]].
    - rewrite (readCell_fieldSet _ _ _ _ _ _ _ Hset). by rewrite decide_True.
    - intros x' y' Hne. rewrite (readCell_fieldSet _ _ _ _ _ y' x' Hset).
      by rewrite decide_False. }
  split; [split|split].
  - intros Hsame.
    destruct (decide (buttons e ≠ 1 ∨ ¬ (0 ≤ offsetY e < rows g * CELL_SIZE)))
      as [|Hp]; [done|].
    destruct Hpaint as (g' & Hg' & _ & _ & Hcanvas); [lia..|].
    rewrite Hsame in Hg'. injection Hg' as <-.
    apply (f_equal length) in Hcanvas. rewrite length_app in Hcanvas.
    cbn in Hcanvas. lia.
  - apply setFirstGen_ignored.
  - unfold primaryButtonHeld. by intros ->.
  - intros Hb Hy. cbv zeta.
    destruct (Hpaint Hb Hy) as (g' & Hg' & Hread & Hother & Hcanvas).
    exists g'. repeat (split; [done|]).
    assert (Hrow := cell_of_pixel _ _ Hy). split; [done|].
    intros [Hx|Hx].
    + apply cell_of_pixel_right in Hx. unfold inGrid. lia.
    + apply cell_of_pixel_left in Hx. unfold inGrid. lia.
Qed.

Lemma setFirstGen_paint_witness :
  fieldInv emptyGame3
  ∧ buttons (mkMouseEvent 45 20 1) = 1
  ∧ 0 ≤ offsetY (mkMouseEvent 45 20 1) < rows emptyGame3 * CELL_SIZE
  ∧ offsetX (mkMouseEvent 45 20 1) >= cols emptyGame3 * CELL_SIZE
  ∧ ∃ g', setFirstGen emptyGame3 (mkMouseEvent 45 20 1) = Some g'
          ∧ readCell g' 1 3 = Some 1
          ∧ ¬ inGrid emptyGame3 3 1.
Proof.
  assert (H : fieldInv emptyGame3).
  { apply (bool_decide_unpack _). vm_compute. exact I. }
  assert (Hb : buttons (mkMouseEvent 45 20 1) = 1) by reflexivity.
  assert (Hy : 0 ≤ offsetY (mkMouseEvent 45 20 1) < rows emptyGame3 * CELL_SIZE).
  { cbn. unfold CELL_SIZE. lia. }
  assert (Hx : offsetX (mkMouseEvent 45 20 1) >= cols emptyGame3 * CELL_SIZE).
  { cbn. unfold CELL_SIZE. lia. }
  split; [exact H|]. split; [exact Hb|]. split; [exact Hy|]. split; [exact Hx|].
  destruct (setFirstGen_paint emptyGame3 (mkMouseEvent 45 20 1) H)
    as (_ & _ & Hpaint).
  destruct (Hpaint Hb Hy) as (g' & Hg' & Hread & _ & _ & _ & Hout).
  exists g'. split; [exact Hg'|]. split; [exact Hread|].
  exact (proj2 (Hout (or_introl Hx))).
Defined.

(** C8 as stated fails: with the primary and the secondary button both
    held (mask 3) and the pointer inside the grid, the primary button is
    held and the vertical coordinate is in range, yet the event is
    ignored. *)
Lemma setFirstGen_ignores_two_buttons :
  primaryButtonHeld (mkMouseEvent 0 0 3)
  ∧ 0 ≤ offsetY (mkMouseEvent 0 0 3) < rows emptyGame3 * CELL_SIZE
  ∧ setFirstGen emptyGame3 (mkMouseEvent 0 0 3) = Some emptyGame3.
Proof.
  split; [reflexivity|]. split; [cbn; unfold CELL_SIZE; lia | reflexivity].
Qed.

(** C9. Every operation preserves the invariant that each cell of the
    grid holds exactly 0 or 1, and every operation returns: each event of
    the event loop ([setFirstGen], [setMode], [start], [reset], a timer or
    an animation frame firing), hence every run of them; [updateField],
    which writes values returned by [getCellState], itself 0 or 1 on every
    cell of the grid; [reset], which recreates the field all-zero, as does
    the constructor. *)
Theorem operations_preserve_binary_cells (g : GameOfLife) :
  fieldInv g →
  (∀ x y, inGrid g x y → readCell g y x = Some 0 ∨ readCell g y x = Some 1)
  ∧ (∀ x y, inGrid g x y →
            ∃ s, getCellState g x y = Some s ∧ (s = 0 ∨ s = 1))
  ∧ (∀ e, ∃ g', setFirstGen g e = Some g' ∧ fieldInv g')
  ∧ (∀ e, ∃ g', setMode g e = Some g' ∧ fieldInv g')
  ∧ (∃ g', updateField g = Some g' ∧ fieldInv g')
  ∧ (∃ g', render g = Some g' ∧ fieldInv g')
  ∧ (∃ g', start g = Some g' ∧ fieldInv g')
  ∧ (∃ g', reset g = Some g' ∧ fieldInv g'
           ∧ ∀ x y, inGrid g' x y → readCell g' y x = Some 0)
  ∧ (∀ ev, ∃ g', step g ev = Some g' ∧ fieldInv g')
  ∧ (∀ evs, ∃ g', run g evs = Some g' ∧ fieldInv g')
  ∧ (∀ c r g0, newGameOfLife c r = Some g0 →
               fieldInv g0 ∧ ∀ x y, inGrid g0 x y → readCell g0 y x = Some 0).
Proof.
  intros Hinv.
  split; [intros x y Hin; by apply (inv_binary g Hinv)|].
  split.
  { intros x y Hin.
    destruct (getCellState_inv g x y Hinv Hin) as (s & _ & Hs & _ & _ & _ & Hb).
    eauto. }
  split.
  { intros e. destruct (setFirstGen_inv g e Hinv) as (g' & ? & ? & _). eauto. }
  split.
  { intros e. destruct (setMode_inv g e Hinv) as (g' & ? & ? & _). eauto. }
  split.
  { destruct (updateField_next g Hinv) as (g' & ? & ? & _). eauto. }
  split; [by apply render_inv|].
  split; [apply (step_inv g ClickStart Hinv)|].
  split.
  { destruct (reset_spec g (inv_dims g Hinv))
      as (g' & Hreset & Hinv' & Hc & Hr & Hz & _).
    exists g'. split; [done|]. split; [done|].
    intros x y Hin. apply Hz. unfold inGrid in *. by rewrite <- Hc, <- Hr. }
  split; [intros ev; by apply step_inv|].
  split; [intros evs; by apply run_inv|].
  intros c r g0 Hnew. unfold newGameOfLife in Hnew.
  set (h := mkGame _ _ _ _ _ _ _ _ _ _ _ _ _ _) in Hnew.
  assert (Hd : validDims h).
  { unfold init in Hnew.
    destruct (generateField _) as [f|] eqn:Hf; [|done].
    by apply generateField_valid in Hf. }
  destruct (init_spec h Hd) as (g1 & Hinit & Hinv1 & Hc & Hr & Hz & _).
  rewrite Hnew in Hinit. injection Hinit as <-.
  split; [done|]. intros x y Hin. apply Hz.
  unfold inGrid in *. by rewrite <- Hc, <- Hr.
Qed.

Lemma operations_preserve_binary_cells_witness :
  fieldInv blinkerGame5
  ∧ (∀ ev, ∃ g', step blinkerGame5 ev = Some g' ∧ fieldInv g')
  ∧ (∀ evs, ∃ g', run blinkerGame5 evs = Some g' ∧ fieldInv g').
Proof.
  assert (H : fieldInv blinkerGame5).
  { apply (bool_decide_unpack _). vm_compute. exact I. }
  split; [exact H|].
  destruct (operations_preserve_binary_cells blinkerGame5 H)
    as (_ & _ & _ & _ & _ & _ & _ & _ & Hstep & Hrun & _).
  split; [exact Hstep | exact Hrun].
Defined.

(** * Further properties of the code *)

(** ** Pixels and cells *)

Lemma cell_of_pixel_iff (a n : Z) :
  0 ≤ a `div` CELL_SIZE < n ↔ 0 ≤ a < n * CELL_SIZE.
Proof.
  split; [|apply cell_of_pixel]. unfold CELL_SIZE. intros Hq.
  assert (Hdm := Z.div_mod a 15 ltac:(lia)).
  assert (Hm := Z.mod_pos_bound a 15 ltac:(lia)). lia.
Qed.

(** ** Painting *)

Lemma fieldSet_field g y x v g' :
  fieldSet g y x v = Some g' →
  ∃ row, field g !! y = Some row
         ∧ field g' = <[y := <[x := v]> row]> (field g).
Proof.
  unfold fieldSet. destruct (field g !! y) as [row|]; [|done].
  cbn. intros [= <-]. by exists row.
Qed.

(** A mousedown with the primary button on a cell of the grid. *)
Lemma mousedown_in_grid g e row v :
  fieldInv g → aborted g = false → buttons e = 1 →
  inGrid g (offsetX e `div` CELL_SIZE) (offsetY e `div` CELL_SIZE) →
  field g !! (offsetY e `div` CELL_SIZE) = Some row →
  row !! (offsetX e `div` CELL_SIZE) = Some v →
  ∃ g', step g (MouseDown e) = Some g'
        ∧ field g' = <[offsetY e `div` CELL_SIZE :=
                         <[offsetX e `div` CELL_SIZE := 1 - v]> row]> (field g)
        ∧ fieldInv g' ∧ aborted g' = false
        ∧ cols g' = cols g ∧ rows g' = rows g
        ∧ isSetting g' = bool_decide (v = 0).
Proof.
  intros Hinv Hab Hb Hin Hrow Hv.
  assert (Hread : readCell g (offsetY e `div` CELL_SIZE)
                    (offsetX e `div` CELL_SIZE) = Some v).
  { unfold readCell. by rewrite Hrow. }
  assert (Hbin : v = 0 ∨ v = 1).
  { destruct (inv_binary g Hinv _ _ Hin) as [H|H]; rewrite Hread in H;
      injection H as ->; tauto. }
  cbn. rewrite Hab. unfold setMode, getCellCoords. rewrite Hread.
  set (g1 := set_isSetting _ g).
  assert (Hinv1 : fieldInv g1) by by apply (fieldInv_ext g).
  destruct (setFirstGen_painted g1 e Hinv1 Hb) as (g' & -> & Hset).
  { apply cell_of_pixel_iff, Hin. }
  exists g'. split; [done|].
  destruct (fieldSet_field _ _ _ _ _ Hset) as (row' & Hrow' & Hf).
  cbn in Hrow'. rewrite Hrow in Hrow'. injection Hrow' as <-.
  destruct (fieldSet_frame _ _ _ _ _ Hset)
    as (Hc & Hr & Hs & _ & _ & _ & Ha & _).
  assert (Hval : Z.b2z (isSetting g1) = 1 - v).
  { destruct Hbin as [-> | ->]; reflexivity. }
  rewrite Hval in Hf, Hset. split; [done|]. split.
  { eapply fieldSet_inv; [exact Hinv1 | | exact Hset]. lia. }
  rewrite Ha, Hc, Hr, Hs. repeat split; try done.
  destruct Hbin as [-> | ->]; reflexivity.
Qed.

(** X2. While the game listens to the mouse, a mousedown with the primary
    button on a cell of the grid toggles that cell: a dead cell becomes
    alive and a live one dead, the paint value is the new state of the
    cell, and no other cell, on the grid or off it, is changed. *)
Theorem mousedown_toggles_cell (g : GameOfLife) (e : MouseEvent) (v : Z) :
  fieldInv g → aborted g = false → buttons e = 1 →
  let x := offsetX e `div` CELL_SIZE in
  let y := offsetY e `div` CELL_SIZE in
  inGrid g x y → readCell g y x = Some v →
  ∃ g', step g (MouseDown e) = Some g'
        ∧ readCell g' y x = Some (1 - v)
        ∧ isSetting g' = bool_decide (1 - v = 1)
        ∧ (∀ x' y', ¬ (y' = y ∧ x' = x) → readCell g' y' x' = readCell g y' x')
        ∧ fieldInv g'.
Proof.
  intros Hinv Hab Hb x y Hin Hread.
  destruct (field g !! y) as [row|] eqn:Hrow;
    [|unfold readCell in Hread; by rewrite Hrow in Hread].
  assert (Hv : row !! x = Some v).
  { unfold readCell in Hread. by rewrite Hrow in Hread. }
  destruct (mousedown_in_grid g e row v Hinv Hab Hb Hin Hrow Hv)
    as (g' & Hstep & Hf & Hinv' & _ & _ & _ & Hset).
  exists g'. split; [done|]. split; [|split; [|split; [|done]]].
  - unfold readCell. rewrite Hf. fold x y.
    rewrite lookup_insert_eq. cbn. by rewrite lookup_insert_eq.
  - rewrite Hset. apply bool_decide_ext. lia.
  - intros x' y' Hne. unfold readCell. rewrite Hf. fold x y.
    destruct (decide (y' = y)) as [->|Hy].
    + rewrite lookup_insert_eq, Hrow. cbn.
      rewrite lookup_insert_ne; [done|]. intros ->. tauto.
    + by rewrite lookup_insert_ne.
Qed.

Lemma mousedown_toggles_cell_witness :
  fieldInv cornerGame3 ∧ aborted cornerGame3 = false
  ∧ ∃ g', step cornerGame3 (MouseDown (mkMouseEvent 3 7 1)) = Some g'
          ∧ readCell g' 0 0 = Some 0 ∧ isSetting g' = false.
Proof.
  assert (H : fieldInv cornerGame3).
  { apply (bool_decide_unpack _). vm_compute. exact I. }
  assert (Hin : inGrid cornerGame3 (3 `div` CELL_SIZE) (7 `div` CELL_SIZE)).
  { apply (bool_decide_unpack _). vm_compute. exact I. }
  split; [exact H|]. split; [reflexivity|].
  destruct (mousedown_toggles_cell cornerGame3 (mkMouseEvent 3 7 1) 1
              H eq_refl eq_refl Hin eq_refl)
    as (g' & Hstep & Hread & Hset & _).
  exists g'. split; [exact Hstep|]. split; [exact Hread | exact Hset].
Defined.

(** X3. While the game listens to the mouse, two mousedowns with the
    primary button on the same cell of the grid give back the field there
    was: the second one finds the cell toggled and toggles it again. *)
Theorem double_mousedown_restores_field (g : GameOfLife) (e : MouseEvent) :
  fieldInv g → aborted g = false → buttons e = 1 →
  inGrid g (offsetX e `div` CELL_SIZE) (offsetY e `div` CELL_SIZE) →
  ∃ g1 g2, step g (MouseDown e) = Some g1 ∧ step g1 (MouseDown e) = Some g2
           ∧ field g1 ≠ field g ∧ field g2 = field g.
Proof.
  intros Hinv Hab Hb Hin.
  set (x := offsetX e `div` CELL_SIZE) in *.
  set (y := offsetY e `div` CELL_SIZE) in *.
  destruct (inv_cell g Hinv x y Hin) as (v & Hread & Hbin).
  destruct (field g !! y) as [row|] eqn:Hrow;
    [|unfold readCell in Hread; by rewrite Hrow in Hread].
  assert (Hv : row !! x = Some v).
  { unfold readCell in Hread. by rewrite Hrow in Hread. }
  destruct (mousedown_in_grid g e row v Hinv Hab Hb Hin Hrow Hv)
    as (g1 & Hstep1 & Hf1 & Hinv1 & Hab1 & Hc1 & Hr1 & _).
  fold x y in Hf1.
  assert (Hin1 : inGrid g1 x y) by (unfold inGrid; by rewrite Hc1, Hr1).
  destruct (mousedown_in_grid g1 e (<[x := 1 - v]> row) (1 - v)
              Hinv1 Hab1 Hb Hin1) as (g2 & Hstep2 & Hf2 & _).
  { fold y. rewrite Hf1. apply lookup_insert_eq. }
  { fold x. apply lookup_insert_eq. }
  fold x y in Hf2.
  exists g1, g2. split; [done|]. split; [done|]. split.
  - intros Heq. apply (f_equal (λ f, f !! y ≫= λ r, r !! x)) in Heq.
    rewrite Hf1, Hrow in Heq. cbn in Heq.
    rewrite lookup_insert_eq in Heq. cbn in Heq.
    rewrite lookup_insert_eq, Hv in Heq. injection Heq. lia.
  - rewrite Hf2, Hf1, !insert_insert_eq.
    replace (1 - (1 - v)) with v by lia.
    rewrite (insert_id row x v Hv). by apply insert_id.
Qed.

Lemma double_mousedown_restores_field_witness :
  fieldInv blinkerGame5
  ∧ ∃ g1 g2,
      step blinkerGame5 (MouseDown (mkMouseEvent 30 30 1)) = Some g1
      ∧ step g1 (MouseDown (mkMouseEvent 30 30 1)) = Some g2
      ∧ field g1 ≠ field blinkerGame5 ∧ field g2 = field blinkerGame5.
Proof.
  assert (H : fieldInv blinkerGame5).
  { apply (bool_decide_unpack _). vm_compute. exact I. }
  assert (Hin : inGrid blinkerGame5 (30 `div` CELL_SIZE) (30 `div` CELL_SIZE)).
  { apply (bool_decide_unpack _). vm_compute. exact I. }
  split; [exact H|].
  exact (double_mousedown_restores_field blinkerGame5 (mkMouseEvent 30 30 1)
           H eq_refl eq_refl Hin).
Defined.




(** ** Creating and resetting the board *)

Lemma generateField_dims g h :
  cols g = cols h → rows g = rows h → generateField g = generateField h.
Proof. unfold generateField. by intros -> ->. Qed.

Lemma init_shape g g' :
  init g = Some g' →
  ∃ f, generateField g = Some f
       ∧ g' = mkGame (cols g) (rows g) f (isSetting g) (timeOut g) (frame g)
                false false true
                (canvas g ++ [DrawGrid (canvas_width g) (canvas_height g)])
                (alerts g) (timers g) (frames g) (nextHandle g).
Proof.
  unfold init. set (g1 := if aborted _ then _ else _).
  assert (Hg1 : g1 = set_aborted false (set_isRunning false g)).
  { subst g1. cbn. destruct (aborted g) eqn:Hab; [done|].
    destruct g. cbn in *. by subst. }
  rewrite Hg1.
  rewrite (generateField_dims _ g) by done.
  destruct (generateField g) as [f|]; [|done].
  cbn. intros [= <-]. by exists f.
Qed.

Lemma reset_shape g g' :
  reset g = Some g' →
  ∃ f, generateField g = Some f
       ∧ g' = mkGame (cols g) (rows g) f (isSetting g) (timeOut g) (frame g)
                false false true
                (canvas g ++ [ClearRect (canvas_width g) (canvas_height g);
                              DrawGrid (canvas_width g) (canvas_height g)])
                (alerts g)
                (match timeOut g with
                 | Some id => timers g ∖ {[id]} | None => timers g end)
                (match frame g with
                 | Some id => frames g ∖ {[id]} | None => frames g end)
                (nextHandle g).
Proof.
  unfold reset. intros (f & Hf & ->)%init_shape.
  exists f. split.
  - rewrite <- Hf. apply generateField_dims;
      cbn; destruct (timeOut g); cbn; destruct (frame g); done.
  - destruct (timeOut g) eqn:Ht; cbn; destruct (frame g) eqn:Hfr; cbn;
      by rewrite ?Ht, ?Hfr, <- app_assoc.
Qed.

(** X5. [reset] returns from every state whose dimensions are valid,
    whatever its field holds: the field is the one a newly constructed game
    of the same dimensions has, all dead; the game is idle and listens to
    the mouse again; the stored timer and frame handles are no longer
    pending; the canvas is cleared and the grid redrawn. The paint value,
    the reports made so far and the other pending callbacks are kept. *)
Theorem reset_restores_fresh_board (g : GameOfLife) :
  validDims g →
  ∃ g', reset g = Some g'
        ∧ (∀ g0, newGameOfLife (cols g) (rows g) = Some g0 → field g' = field g0)
        ∧ fieldInv g' ∧ allCells 0 g'
        ∧ cols g' = cols g ∧ rows g' = rows g
        ∧ isRunning g' = false ∧ aborted g' = false
        ∧ hasSignsOfLife g' = true ∧ isSetting g' = isSetting g
        ∧ alerts g' = alerts g ∧ nextHandle g' = nextHandle g
        ∧ canvas g'
          = canvas g ++ [ClearRect (cols g * CELL_SIZE) (rows g * CELL_SIZE);
                         DrawGrid (cols g * CELL_SIZE) (rows g * CELL_SIZE)]
        ∧ (∀ id, timeOut g = Some id → timers g' = timers g ∖ {[id]})
        ∧ (timeOut g = None → timers g' = timers g)
        ∧ (∀ id, frame g = Some id → frames g' = frames g ∖ {[id]})
        ∧ (frame g = None → frames g' = frames g).
Proof.
  intros Hd.
  destruct (reset_spec g Hd) as (g' & Hreset & Hinv & _ & _ & Hz & _).
  exists g'. split; [done|].
  destruct (reset_shape g g' Hreset) as (f & Hf & Hshape).
  split.
  { intros g0 (f0 & Hf0 & ->)%init_shape. rewrite Hshape. cbn.
    rewrite (generateField_dims _ g) in Hf0 by done. congruence. }
  split; [done|]. split.
  { apply Forall_forall. intros [x y] Hp. apply elem_of_gridCells in Hp.
    apply Hz. unfold inGrid in *. by rewrite Hshape in Hp. }
  rewrite Hshape. cbn. do 9 (split; [done|]).
  split; [by intros id ->|]. split; [by intros ->|].
  split; [by intros id ->| by intros ->].
Qed.

Lemma reset_restores_fresh_board_witness :
  validDims blinkerGame5
  ∧ ∃ g', reset blinkerGame5 = Some g'
          ∧ allCells 0 g' ∧ isRunning g' = false ∧ aborted g' = false.
Proof.
  assert (H : validDims blinkerGame5).
  { apply (bool_decide_unpack _). vm_compute. exact I. }
  split; [exact H|].
  destruct (reset_restores_fresh_board blinkerGame5 H)
    as (g' & Hreset & _ & _ & Hdead & _ & _ & Hrun & Hab & _).
  exists g'. split; [exact Hreset|]. split; [exact Hdead|].
  split; [exact Hrun | exact Hab].
Defined.

(** X6. [generateField], and with it [reset] and the constructor, raises
    exactly when [rows] is not a valid array length or, there being at
    least one row, [cols] is not: with no row at all, any [cols] is
    accepted, the row arrays never being created. *)
Theorem generateField_raises_iff (g : GameOfLife) (c r : Z) :
  (generateField g = None ↔ ¬ validDims g)
  ∧ (reset g = None ↔ ¬ validDims g)
  ∧ (newGameOfLife c r = None ↔
     ¬ (0 ≤ r < 2 ^ 32 ∧ (r = 0 ∨ 0 ≤ c < 2 ^ 32)))
  ∧ is_Some (newGameOfLife (-1) 0)
  ∧ newGameOfLife 0 (-1) = None ∧ newGameOfLife (-1) 1 = None.
Proof.
  assert (Hgen : ∀ h, generateField h = None ↔ ¬ validDims h).
  { intros h. split.
    - intros Hnone Hd.
      destruct (generateField_spec h Hd) as (f & Hf & _). congruence.
    - intros Hd. destruct (generateField h) as [f|] eqn:Hf; [|done].
      by apply generateField_valid in Hf. }
  split; [apply Hgen|]. split; [|split].
  - split.
    + intros Hnone Hd. destruct (reset_spec g Hd) as (g' & Hg' & _).
      congruence.
    + intros Hd. destruct (reset g) as [g'|] eqn:Hg'; [|done].
      destruct (reset_shape g g' Hg') as (f & Hf & _).
      by apply generateField_valid in Hf.
  - unfold newGameOfLife.
    set (h := mkGame _ _ _ _ _ _ _ _ _ _ _ _ _ _).
    change (¬ (0 ≤ r < 2 ^ 32 ∧ (r = 0 ∨ 0 ≤ c < 2 ^ 32)))
      with (¬ validDims h). split.
    + intros Hnone Hd. destruct (init_spec h Hd) as (g' & Hg' & _).
      congruence.
    + intros Hd. destruct (init h) as [g'|] eqn:Hg'; [|done].
      destruct (init_shape h g' Hg') as (f & Hf & _).
      by apply generateField_valid in Hf.
  - split; [vm_compute; eauto|]. split; reflexivity.
Qed.

(** ** Whole boards *)

Lemma allCells_read v g x y :
  allCells v g → inGrid g x y → readCell g y x = Some v.
Proof.
  unfold allCells. rewrite Forall_forall. intros Hall Hin.
  apply (Hall (x, y)). by apply elem_of_gridCells.
Qed.

Lemma allCells_intro v g :
  (∀ x y, inGrid g x y → readCell g y x = Some v) → allCells v g.
Proof.
  intros Hall. apply Forall_forall. intros [x y] Hp.
  apply Hall. by apply elem_of_gridCells in Hp.
Qed.

Lemma uniform_torusSum g v x y ns :
  fieldInv g → allCells v g → inGrid g x y →
  Forall (λ d : Z * Z, -1 ≤ d.1 ≤ 1 ∧ -1 ≤ d.2 ≤ 1) ns →
  torusSum g x y ns = v * Z.of_nat (length ns).
Proof.
  intros Hinv Hall Hin. induction 1 as [|d ns Hd _ IH]; cbn; [lia|].
  destruct (neighbour_read g Hinv x y Hin d Hd) as (v' & Hread & -> & _).
  rewrite (allCells_read v g) in Hread; [|done|].
  - injection Hread as <-. fold (torusSum g x y ns). lia.
  - destruct Hin, Hd. split; apply wrap_range; lia.
Qed.

Lemma uniform_next_state g v x y :
  fieldInv g → allCells v g → inGrid g x y →
  getCellState g x y = Some (nextState v (8 * v)).
Proof.
  intros Hinv Hall Hin.
  destruct (getCellState_inv g x y Hinv Hin) as (s & c & -> & Hc & -> & _).
  rewrite (allCells_read v g) in Hc by done. injection Hc as <-.
  unfold fullNeighboursCount.
  rewrite (uniform_torusSum g v) by (done || apply NEIGHBOURS_offsets).
  do 2 f_equal. cbn. lia.
Qed.

Lemma dead_scan g :
  fieldInv g → allCells 0 g →
  diffOf g (gridCells g) = [] ∧ lifeOf g (gridCells g) = false.
Proof.
  intros Hinv Hall. split.
  - apply elem_of_nil_inv. intros c (Hp & Hs & cur & Hcur & Hne)%elem_of_diffOf.
    apply elem_of_gridCells in Hp. cbn in Hp.
    rewrite (uniform_next_state g 0) in Hs by done.
    rewrite (allCells_read 0 g) in Hcur by done.
    injection Hs as Hs. injection Hcur as Hcur. rewrite <- Hs, <- Hcur in Hne.
    by apply Hne.
  - apply not_true_is_false. intros ([x y] & Hp & s & Hs & Hne)%lifeOf_true.
    apply elem_of_gridCells in Hp. cbn in Hp, Hs.
    rewrite (uniform_next_state g 0) in Hs by done.
    injection Hs as <-. by apply Hne.
Qed.

(** The state a halting generation leaves before a possible [reset]. *)
Lemma halted_proj g b m :
  let g3 := alert m (clearTimeout (timeOut g)
                       (cancelAnimationFrame (frame g)
                          (set_isRunning false (set_hasSignsOfLife b g)))) in
  g3 = mkGame (cols g) (rows g) (field g) (isSetting g) (timeOut g) (frame g)
         false (aborted g) b (canvas g) (alerts g ++ [m])
         (match timeOut g with
          | Some id => timers g ∖ {[id]} | None => timers g end)
         (match frame g with
          | Some id => frames g ∖ {[id]} | None => frames g end)
         (nextHandle g).
Proof.
  cbv zeta. destruct (frame g) eqn:Hfr; cbn; destruct (timeOut g) eqn:Ht; cbn;
    unfold alert, set_alerts, set_timers, set_frames, set_isRunning,
      set_hasSignsOfLife; cbn; by rewrite ?Hfr, ?Ht.
Qed.

(** A generation computed on a dead board. *)
Lemma updateField_dead g :
  fieldInv g → allCells 0 g →
  ∃ f, generateField g = Some f
       ∧ updateField g
         = Some (mkGame (cols g) (rows g) f (isSetting g) (timeOut g) (frame g)
                   false false true
                   (canvas g ++ [ClearRect (canvas_width g) (canvas_height g);
                                 DrawGrid (canvas_width g) (canvas_height g)])
                   (alerts g ++ [extinctMessage])
                   (match timeOut g with
                    | Some id => timers g ∖ {[id]} | None => timers g end)
                   (match frame g with
                    | Some id => frames g ∖ {[id]} | None => frames g end)
                   (nextHandle g)).
Proof.
  intros Hinv Hdead. destruct (dead_scan g Hinv Hdead) as [Hnil Hlife].
  rewrite (updateField_fixed g Hinv Hnil). cbv zeta. rewrite Hlife.
  cbn [negb]. rewrite halted_proj.
  set (g3 := mkGame _ _ _ _ _ _ _ _ _ _ _ _ _ _).
  destruct (reset_spec g3) as (g' & Hreset & _); [apply (inv_dims g Hinv)|].
  destruct (reset_shape g3 g' Hreset) as (f & Hf & ->).
  exists f. split; [by rewrite <- Hf; apply generateField_dims|].
  rewrite Hreset. f_equal. subst g3. cbn.
  f_equal; destruct (timeOut g), (frame g); try done;
    apply set_eq; intros i;
    rewrite !elem_of_difference, elem_of_singleton; tauto.
Qed.

Lemma fresh_field_dead g f x y :
  generateField g = Some f → inGrid g x y →
  f !! y ≫= (λ row, row !! x) = Some 0.
Proof.
  intros Hf Hin.
  destruct (generateField_spec g) as (f' & Hf' & _ & Hcell);
    [by eapply generateField_valid|].
  rewrite Hf in Hf'. injection Hf' as <-.
  rewrite Hcell. by rewrite decide_True.
Qed.

(** X7. [start] on an idle game whose board is all dead, as a newly
    constructed one is, computes the first generation at once, finds the
    colony extinct and reports it, once; [reset] then leaves the game
    idle, the board dead and the mouse listened to again. [render] arms a
    timer all the same: it is pending when [start] returns, and when the
    queues drain it computes nothing, draws nothing and reports nothing. *)
Theorem start_on_dead_board (g : GameOfLife) :
  fieldInv g → allCells 0 g → isRunning g = false →
  ∃ g', start g = Some g'
        ∧ alerts g' = alerts g ++ [extinctMessage]
        ∧ isRunning g' = false ∧ aborted g' = false
        ∧ fieldInv g' ∧ allCells 0 g'
        ∧ canvas g'
          = canvas g ++ [ClearRect (cols g * CELL_SIZE) (rows g * CELL_SIZE);
                         DrawGrid (cols g * CELL_SIZE) (rows g * CELL_SIZE)]
        ∧ timeOut g' = Some (nextHandle g) ∧ nextHandle g ∈ timers g'
        ∧ ∀ evs, Forall isQueueEvent evs →
                 ∃ g'', run g' evs = Some g'' ∧ isRunning g'' = false
                        ∧ field g'' = field g' ∧ alerts g'' = alerts g'
                        ∧ canvas g'' = canvas g'.
Proof.
  intros Hinv Hdead Hidle. unfold start. rewrite Hidle.
  set (g2 := set_aborted true (set_isRunning true g)).
  assert (Hinv2 : fieldInv g2) by by apply (fieldInv_ext g).
  destruct (updateField_dead g2 Hinv2 Hdead) as (f & Hf & Hup).
  unfold render. cbn [isRunning g2 set_aborted set_isRunning negb].
  rewrite Hup. cbn [mbind option_bind].
  eexists. split; [reflexivity|]. cbn.
  split; [done|]. split; [done|]. split; [done|].
  assert (Hz : ∀ x y, inGrid g x y →
                      f !! y ≫= (λ row, row !! x) = Some 0).
  { intros x y Hin. by apply (fresh_field_dead g2). }
  assert (Hinv' : fieldInv (mkGame (cols g) (rows g) f (isSetting g)
                     (Some (nextHandle g)) (frame g) false false true
                     [] [] ∅ ∅ 0)).
  { destruct (generateField_spec g2) as (f' & Hf' & Hdom & _);
      [by apply (inv_dims g2)|].
    rewrite Hf in Hf'. injection Hf' as <-.
    apply fieldInv_intro; [by apply (inv_dims g) | done |].
    intros x y Hin. left. by apply Hz. }
  split; [by eapply fieldInv_ext; [..|exact Hinv']|].
  split; [by apply allCells_intro|].
  split; [done|]. split; [done|].
  split; [apply elem_of_union_l; by apply elem_of_singleton|].
  intros evs Hevs. by apply queue_idle.
Qed.

Lemma start_on_dead_board_witness :
  fieldInv emptyGame3 ∧ allCells 0 emptyGame3 ∧ isRunning emptyGame3 = false
  ∧ ∃ g', start emptyGame3 = Some g'
          ∧ alerts g' = [extinctMessage]
          ∧ isRunning g' = false ∧ aborted g' = false
          ∧ timers g' = {[0%nat]}.
Proof.
  assert (H : fieldInv emptyGame3).
  { apply (bool_decide_unpack _). vm_compute. exact I. }
  assert (Hd : allCells 0 emptyGame3).
  { apply (bool_decide_unpack _). vm_compute. exact I. }
  split; [exact H|]. split; [exact Hd|]. split; [reflexivity|].
  destruct (start_on_dead_board emptyGame3 H Hd eq_refl)
    as (g' & Hstart & Hal & Hrun & Hab & _).
  exists g'. split; [exact Hstart|]. split; [exact Hal|].
  split; [exact Hrun|]. split; [exact Hab|].
  assert (Hg' : start emptyGame3 = Some g') by exact Hstart.
  vm_compute in Hg'. injection Hg' as <-. reflexivity.
Defined.

Lemma full_diff g ps :
  fieldInv g → allCells 1 g → (∀ p, p ∈ ps → inGrid g p.1 p.2) →
  diffOf g ps = (λ p, mkChange p.1 p.2 0) <$> ps.
Proof.
  intros Hinv Hfull. induction ps as [|p ps IH]; intros Hps; [done|].
  unfold diffOf in *. rewrite fmap_cons. cbn [mbind list_bind].
  change (list_bind _ _ (changeOf g) ps) with (ps ≫= changeOf g).
  rewrite IH by (intros q Hq; apply Hps; by right).
  assert (Hin : inGrid g p.1 p.2) by (apply Hps; by left).
  unfold changeOf at 1.
  rewrite (uniform_next_state g 1), (allCells_read 1 g) by done. done.
Qed.

(** After a generation whose scan found no life, the board is dead. *)
Lemma lifeless_generation g g' :
  fieldInv g → lifeOf g (gridCells g) = false → updateField g = Some g' →
  fieldInv g' ∧ allCells 0 g' ∧ cols g' = cols g ∧ rows g' = rows g.
Proof.
  intros Hinv Hlife Hup.
  destruct (updateField_next g Hinv) as (g1 & Hup1 & Hinv1 & Hc & Hr & Hcell).
  rewrite Hup in Hup1. injection Hup1 as <-.
  split; [done|]. split; [|done].
  apply allCells_intro. intros x y Hin.
  assert (Hin0 : inGrid g x y) by (unfold inGrid in *; by rewrite <- Hc, <- Hr).
  rewrite Hcell by done. by apply lifeless_cell.
Qed.

(** What a generation that recorded changes leaves alone. *)
Lemma changing_generation g g' :
  fieldInv g → diffOf g (gridCells g) ≠ [] → updateField g = Some g' →
  ∃ f, g' = set_canvas (canvas g ++ (drawOf <$> diffOf g (gridCells g)))
              (set_field f (set_hasSignsOfLife (lifeOf g (gridCells g)) g)).
Proof.
  intros Hinv Hne Hup. rewrite updateField_changes in Hup by done.
  destruct (applyChanges_spec (diffOf g (gridCells g))
              (set_hasSignsOfLife (lifeOf g (gridCells g)) g))
    as (g2 & Hrun & Hshape & _).
  { intros c Hc. cbn. by apply change_row. }
  rewrite Hrun in Hup. by injection Hup as <-.
Qed.

(** X8. A board whose cells are all alive dies in one generation, whatever
    its dimensions: every cell counts more than three live neighbours
    around the torus, the scan records every cell of the grid as a change
    to dead, in the order of its visit, and finds no life, and afterwards
    every cell is dead. *)
Theorem full_board_dies (g : GameOfLife) :
  fieldInv g → allCells 1 g →
  scanField g = Some ((λ p, mkChange p.1 p.2 0) <$> gridCells g, false)
  ∧ (∀ x y, inGrid g x y → getNeighboursCount g x y = Some 4
                           ∧ fullNeighboursCount g x y = 8)
  ∧ ∃ g', updateField g = Some g' ∧ fieldInv g' ∧ allCells 0 g'.
Proof.
  intros Hinv Hfull.
  assert (Hlife : lifeOf g (gridCells g) = false).
  { apply not_true_is_false. intros ([x y] & Hp & s & Hs & Hne)%lifeOf_true.
    apply elem_of_gridCells in Hp. cbn in Hp, Hs.
    rewrite (uniform_next_state g 1) in Hs by done.
    injection Hs as <-. by apply Hne. }
  split; [|split].
  - rewrite scanField_spec by done. rewrite Hlife.
    rewrite full_diff; [done..|]. intros p. apply elem_of_gridCells.
  - intros x y Hin.
    assert (Hc : fullNeighboursCount g x y = 8).
    { unfold fullNeighboursCount.
      rewrite (uniform_torusSum g 1) by (done || apply NEIGHBOURS_offsets).
      reflexivity. }
    split; [|done]. rewrite getNeighboursCount_capped by done. by rewrite Hc.
  - destruct (updateField_next g Hinv) as (g' & Hup & _).
    exists g'. split; [done|].
    destruct (lifeless_generation g g' Hinv Hlife Hup) as (? & ? & _). done.
Qed.

Lemma full_board_dies_witness :
  fieldInv fullGame3 ∧ allCells 1 fullGame3
  ∧ ∃ g', updateField fullGame3 = Some g' ∧ allCells 0 g'.
Proof.
  assert (H : fieldInv fullGame3).
  { apply (bool_decide_unpack _). vm_compute. exact I. }
  assert (Hf : allCells 1 fullGame3).
  { apply (bool_decide_unpack _). vm_compute. exact I. }
  split; [exact H|]. split; [exact Hf|].
  destruct (full_board_dies fullGame3 H Hf) as (_ & _ & g' & Hup & _ & Hd).
  exists g'. split; [exact Hup | exact Hd].
Defined.

(** X9. Extinction is reported one generation after it happens. When the
    scan records changes and finds no life, [updateField] kills the last
    cells without reporting anything and without stopping the run; it is
    the next [updateField], finding a dead board and no change, that
    reports the extinction, stops the run and resets the game. *)
Theorem extinction_reported_one_generation_late
    (g : GameOfLife) (changes : list Change) :
  fieldInv g → scanField g = Some (changes, false) → changes ≠ [] →
  ∃ g1 g2, updateField g = Some g1
           ∧ allCells 0 g1
           ∧ isRunning g1 = isRunning g ∧ alerts g1 = alerts g
           ∧ aborted g1 = aborted g
           ∧ timers g1 = timers g ∧ frames g1 = frames g
           ∧ updateField g1 = Some g2
           ∧ alerts g2 = alerts g ++ [extinctMessage]
           ∧ isRunning g2 = false ∧ aborted g2 = false
           ∧ allCells 0 g2.
Proof.
  intros Hinv Hscan Hne. rewrite scanField_spec in Hscan by done.
  injection Hscan as Hch Hlife. rewrite <- Hch in Hne.
  destruct (updateField_next g Hinv) as (g1 & Hup & _).
  destruct (lifeless_generation g g1 Hinv Hlife Hup) as (Hinv1 & Hdead1 & _).
  destruct (changing_generation g g1 Hinv Hne Hup) as (f & Hshape).
  destruct (updateField_dead g1 Hinv1 Hdead1) as (f2 & Hf2 & Hup2).
  eexists g1, _. split; [done|]. split; [done|].
  split; [by rewrite Hshape|]. split; [by rewrite Hshape|].
  split; [by rewrite Hshape|]. split; [by rewrite Hshape|].
  split; [by rewrite Hshape|]. split; [exact Hup2|].
  cbn. split; [by rewrite Hshape|]. split; [done|]. split; [done|].
  apply allCells_intro. intros x y Hin. unfold readCell. cbn.
  by apply (fresh_field_dead g1).
Qed.

Lemma extinction_reported_one_generation_late_witness :
  fieldInv fullGame3
  ∧ ∃ changes, scanField fullGame3 = Some (changes, false) ∧ changes ≠ []
    ∧ ∃ g1 g2, updateField fullGame3 = Some g1 ∧ alerts g1 = []
               ∧ updateField g1 = Some g2 ∧ alerts g2 = [extinctMessage].
Proof.
  assert (H : fieldInv fullGame3).
  { apply (bool_decide_unpack _). vm_compute. exact I. }
  split; [exact H|].
  assert (Hs : ∃ changes, scanField fullGame3 = Some (changes, false)
                          ∧ changes ≠ []).
  { eexists. split; [vm_compute; reflexivity | discriminate]. }
  destruct Hs as (changes & Hscan & Hne). exists changes.
  split; [exact Hscan|]. split; [exact Hne|].
  destruct (extinction_reported_one_generation_late fullGame3 changes
              H Hscan Hne)
    as (g1 & g2 & Hup1 & _ & _ & Hal1 & _ & _ & _ & Hup2 & Hal2 & _).
  exists g1, g2. split; [exact Hup1|]. split; [exact Hal1|].
  split; [exact Hup2 | exact Hal2].
Defined.

Lemma diff_coords_sublist g ps :
  (changeCoords <$> diffOf g ps) `sublist_of` ps.
Proof.
  induction ps as [|p ps IH]; [done|].
  unfold diffOf in *. cbn [mbind list_bind].
  change (list_bind _ _ (changeOf g) ps) with (ps ≫= changeOf g).
  rewrite fmap_app.
  assert (Hp : changeCoords <$> changeOf g p = []
               ∨ changeCoords <$> changeOf g p = [p]).
  { unfold changeOf. destruct (getCellState _ _ _); [|by left].
    destruct (readCell _ _ _); [|by left].
    case_decide; [right | by left]. by destruct p. }
  destruct Hp as [-> | ->]; cbn; [by apply sublist_cons | by apply sublist_skip].
Qed.

(** X10. The change list of a generation has at most one entry for a cell,
    the entries following the order of the scan. It is empty exactly when
    every cell of the grid is its own next state, and exactly then does
    [updateField] leave the whole grid as it found it. A generation that
    recorded changes draws one cell for each of them and touches neither
    the running flag, nor the listeners, nor the reports, nor the pending
    callbacks; it stores whether the scan found life. *)
Theorem change_list_shape (g : GameOfLife) :
  fieldInv g →
  ∃ changes hasLife g',
    scanField g = Some (changes, hasLife) ∧ updateField g = Some g'
    ∧ NoDup (changeCoords <$> changes)
    ∧ (changeCoords <$> changes) `sublist_of` gridCells g
    ∧ (changes = [] ↔
       ∀ x y, inGrid g x y → getCellState g x y = readCell g y x)
    ∧ (changes = [] ↔
       ∀ x y, inGrid g x y → readCell g' y x = readCell g y x)
    ∧ (changes ≠ [] →
       isRunning g' = isRunning g ∧ aborted g' = aborted g
       ∧ alerts g' = alerts g ∧ timers g' = timers g ∧ frames g' = frames g
       ∧ hasSignsOfLife g' = hasLife
       ∧ length (canvas g') = (length (canvas g) + length changes)%nat).
Proof.
  intros Hinv.
  destruct (updateField_next g Hinv) as (g' & Hup & _ & _ & _ & Hcell).
  exists (diffOf g (gridCells g)), (lifeOf g (gridCells g)), g'.
  split; [by apply scanField_spec|]. split; [done|].
  assert (Hsub := diff_coords_sublist g (gridCells g)).
  split; [eapply sublist_NoDup; [apply NoDup_gridCells | exact Hsub]|].
  split; [done|].
  assert (Hstill : diffOf g (gridCells g) = [] ↔
            ∀ x y, inGrid g x y → getCellState g x y = readCell g y x).
  { split.
    - intros Hnil x y Hin. apply unchanged_cell; [done..|].
      intros c Hc. rewrite Hnil in Hc. by apply elem_of_nil in Hc.
    - intros Hsame. apply elem_of_nil_inv. intros c Hc.
      apply (change_recorded g) in Hc as (Hin & Hs & Hne).
      rewrite <- Hsame in Hne by done. by apply Hne. }
  split; [done|]. split.
  { rewrite Hstill. split; intros Hsame x y Hin.
    - rewrite Hcell by done. by apply Hsame.
    - rewrite <- Hcell by done. by apply Hsame. }
  intros Hne.
  destruct (changing_generation g g' Hinv Hne Hup) as (f & ->). cbn.
  do 6 (split; [done|]). by rewrite length_app, length_fmap.
Qed.

Lemma change_list_shape_witness :
  fieldInv blinkerGame5
  ∧ ∃ changes hasLife g',
      scanField blinkerGame5 = Some (changes, hasLife)
      ∧ updateField blinkerGame5 = Some g'
      ∧ NoDup (changeCoords <$> changes)
      ∧ (changeCoords <$> changes) `sublist_of` gridCells blinkerGame5.
Proof.
  assert (H : fieldInv blinkerGame5).
  { apply (bool_decide_unpack _). vm_compute. exact I. }
  split; [exact H|].
  destruct (change_list_shape blinkerGame5 H)
    as (changes & hasLife & g' & Hscan & Hup & Hnd & Hsub & _).
  exists changes, hasLife, g'.
  split; [exact Hscan|]. split; [exact Hup|]. split; [exact Hnd | exact Hsub].
Defined.

(** ** Starting and the scheduler *)

(** The scan reads the dimensions and the field only. *)
Lemma scan_ext g h :
  cols h = cols g → rows h = rows g → field h = field g →
  diffOf h (gridCells h) = diffOf g (gridCells g)
  ∧ lifeOf h (gridCells h) = lifeOf g (gridCells g)
  ∧ ∀ x y, getCellState h x y = getCellState g x y.
Proof.
  destruct g, h. cbn. intros -> -> ->. by repeat split.
Qed.

(** A generation requests no callback and cancels only stored ones. *)
Lemma updateField_handles g g' :
  fieldInv g → updateField g = Some g' →
  nextHandle g' = nextHandle g ∧ timers g' ⊆ timers g ∧ frames g' ⊆ frames g
  ∧ timeOut g' = timeOut g ∧ frame g' = frame g.
Proof.
  intros Hinv Hup.
  destruct (decide (diffOf g (gridCells g) = [])) as [Hnil|Hne].
  - rewrite (updateField_fixed g Hinv Hnil) in Hup. cbv zeta in Hup.
    rewrite halted_proj in Hup.
    assert (Hsub : ∀ (X : gset nat) o,
              match o with Some id => X ∖ {[id]} | None => X end ⊆ X).
    { intros X [id|]; [apply subseteq_difference_l|]; done. }
    destruct (lifeOf g (gridCells g)); cbn [negb] in Hup.
    + injection Hup as <-. cbn. by do 4 (split; [done|]).
    + apply reset_shape in Hup as (f & _ & ->). cbn.
      split; [done|]. split; [|split; [|done]].
      * etrans; apply Hsub.
      * etrans; apply Hsub.
  - destruct (changing_generation g g' Hinv Hne Hup) as (f & ->). cbn.
    by do 4 (split; [done|]).
Qed.

(** X11. [start] on an idle game whose first generation changes some cell
    computes that generation at once, before returning: the game is then
    running and deaf to the mouse, every cell of the grid holds its next
    state, nothing is reported, and one new timer is pending. The callbacks
    that were pending before are all still pending, [start] cancelling
    none, and a second [start] does nothing. *)
Theorem start_runs_first_generation
    (g : GameOfLife) (changes : list Change) (hasLife : bool) :
  fieldInv g → isRunning g = false →
  scanField g = Some (changes, hasLife) → changes ≠ [] →
  ∃ g', start g = Some g'
        ∧ isRunning g' = true ∧ aborted g' = true
        ∧ (∀ x y, inGrid g x y → readCell g' y x = getCellState g x y)
        ∧ alerts g' = alerts g
        ∧ canvas g' = canvas g ++ (drawOf <$> changes)
        ∧ timeOut g' = Some (nextHandle g)
        ∧ timers g' = {[nextHandle g]} ∪ timers g
        ∧ frames g' = frames g
        ∧ (∀ e, step g' (MouseMove e) = Some g'
                ∧ step g' (MouseDown e) = Some g')
        ∧ start g' = Some g'.
Proof.
  intros Hinv Hidle Hscan Hne. rewrite scanField_spec in Hscan by done.
  injection Hscan as Hch Hlife. rewrite <- Hch in *.
  unfold start at 1. rewrite Hidle.
  set (g2 := set_aborted true (set_isRunning true g)).
  assert (Hinv2 : fieldInv g2) by by apply (fieldInv_ext g).
  destruct (scan_ext g g2) as (Hd2 & Hl2 & Hs2); [done..|].
  destruct (updateField_next g2 Hinv2) as (g3 & Hup & _ & _ & _ & Hcell).
  destruct (changing_generation g2 g3 Hinv2) as (f & Hshape);
    [by rewrite Hd2 | done |].
  unfold render. cbn [isRunning g2 set_aborted set_isRunning negb].
  rewrite Hup. cbn [mbind option_bind].
  eexists. split; [reflexivity|].
  assert (Hab : aborted (setTimeout g3) = true) by by rewrite Hshape.
  assert (Hrun : isRunning (setTimeout g3) = true) by by rewrite Hshape.
  split; [done|]. split; [done|]. split.
  { intros x y Hin. rewrite <- Hs2, <- Hcell by done. done. }
  split; [by rewrite Hshape|].
  split; [rewrite Hshape; cbn; by rewrite Hd2|].
  split; [by rewrite Hshape|]. split; [by rewrite Hshape|].
  split; [by rewrite Hshape|]. split.
  - intros e. cbn [step]. by rewrite Hab.
  - unfold start. by rewrite Hrun.
Qed.

Lemma start_runs_first_generation_witness :
  fieldInv blinkerGame5 ∧ isRunning blinkerGame5 = false
  ∧ ∃ g', start blinkerGame5 = Some g'
          ∧ isRunning g' = true ∧ aborted g' = true
          ∧ timers g' = {[0%nat]} ∪ timers blinkerGame5.
Proof.
  assert (H : fieldInv blinkerGame5).
  { apply (bool_decide_unpack _). vm_compute. exact I. }
  assert (Hs : ∃ changes, scanField blinkerGame5 = Some (changes, true)
                          ∧ changes ≠ []).
  { eexists. split; [vm_compute; reflexivity | discriminate]. }
  destruct Hs as (changes & Hscan & Hne).
  split; [exact H|]. split; [reflexivity|].
  destruct (start_runs_first_generation blinkerGame5 changes true
              H eq_refl Hscan Hne)
    as (g' & Hstart & Hrun & Hab & _ & _ & _ & _ & Ht & _).
  exists g'. split; [exact Hstart|]. split; [exact Hrun|].
  split; [exact Hab | exact Ht].
Defined.

(** X12. The loop advances in two stages. A pending timer that fires only
    requests an animation frame: it computes nothing, draws nothing and
    reports nothing. The frame it requested, when it fires on a running
    game, computes exactly one generation, every cell of the grid holding
    its next state afterwards, and arms one new timer, whether or not that
    generation halted the run. *)
Theorem timer_then_frame_is_one_generation (g : GameOfLife) (t : nat) :
  fieldInv g → isRunning g = true → t ∈ timers g →
  ∃ g1 g', step g (TimerFires t) = Some g1
           ∧ field g1 = field g ∧ alerts g1 = alerts g ∧ canvas g1 = canvas g
           ∧ isRunning g1 = true
           ∧ timers g1 = timers g ∖ {[t]}
           ∧ frame g1 = Some (nextHandle g)
           ∧ frames g1 = {[nextHandle g]} ∪ frames g
           ∧ step g1 (FrameFires (nextHandle g)) = Some g'
           ∧ (∀ x y, inGrid g x y → readCell g' y x = getCellState g x y)
           ∧ timeOut g' = Some (S (nextHandle g))
           ∧ S (nextHandle g) ∈ timers g'
           ∧ timers g' ⊆ {[S (nextHandle g)]} ∪ (timers g ∖ {[t]})
           ∧ nextHandle g ∉ frames g' ∖ frames g.
Proof.
  intros Hinv Hrun Ht.
  set (g1 := requestAnimationFrame (set_timers (timers g ∖ {[t]}) g)).
  set (g2 := set_frames (frames g1 ∖ {[nextHandle g]}) g1).
  exists g1.
  assert (Hinv2 : fieldInv g2) by by apply (fieldInv_ext g).
  destruct (scan_ext g g2) as (_ & _ & Hs2); [done..|].
  destruct (updateField_next g2 Hinv2) as (g3 & Hup & _ & _ & _ & Hcell).
  destruct (updateField_handles g2 g3 Hinv2 Hup) as (Hn & Hts & Hfs & _).
  exists (setTimeout g3).
  split; [cbn [step]; by rewrite decide_True|].
  do 7 (split; [done|]). split.
  { cbn [step]. rewrite decide_True.
    - unfold render. fold g2.
      change (isRunning g2) with (isRunning g). rewrite Hrun. cbn [negb].
      by rewrite Hup.
    - apply elem_of_union_l. by apply elem_of_singleton. }
  split.
  { intros x y Hin. rewrite <- Hs2, <- Hcell by done. done. }
  cbn. rewrite Hn. cbn. split; [done|].
  split; [apply elem_of_union_l; by apply elem_of_singleton|]. split.
  - intros i [Hi|Hi]%elem_of_union; [by apply elem_of_union_l|].
    apply elem_of_union_r. by apply Hts.
  - intros [Hin _]%elem_of_difference. apply Hfs in Hin. cbn in Hin.
    apply elem_of_difference in Hin as [_ Hnot].
    apply Hnot. by apply elem_of_singleton.
Qed.

Lemma timer_then_frame_is_one_generation_witness :
  ∃ g, start blinkerGame5 = Some g ∧ fieldInv g ∧ isRunning g = true
       ∧ 0%nat ∈ timers g
       ∧ ∃ g', run g [TimerFires 0; FrameFires 1] = Some g'
               ∧ field g' = field blinkerGame5.
Proof.
  assert (Hs : is_Some (start blinkerGame5)).
  { vm_compute. eexists. reflexivity. }
  destruct Hs as [g Hg]. exists g. split; [exact Hg|].
  assert (Hg0 : start blinkerGame5 = Some g) by exact Hg.
  vm_compute in Hg0. injection Hg0 as <-.
  match goal with |- fieldInv ?h ∧ _ => set (g := h) end.
  assert (H : fieldInv g).
  { apply (bool_decide_unpack _). vm_compute. exact I. }
  assert (Ht : 0%nat ∈ timers g).
  { apply (bool_decide_unpack _). vm_compute. exact I. }
  split; [exact H|]. split; [reflexivity|]. split; [exact Ht|].
  destruct (timer_then_frame_is_one_generation g 0 H eq_refl Ht)
    as (g1 & g' & Hstep1 & _ & _ & _ & _ & _ & _ & _ & Hstep2 & _).
  exists g'. split.
  - unfold run. rewrite forM_cons, Hstep1. cbn [mbind option_bind].
    rewrite forM_cons. change (nextHandle g) with 1%nat in Hstep2.
    rewrite Hstep2. reflexivity.
  - assert (Hr : run g [TimerFires 0; FrameFires 1] = Some g').
    { unfold run. rewrite forM_cons, Hstep1. cbn [mbind option_bind].
      rewrite forM_cons. change (nextHandle g) with 1%nat in Hstep2.
      rewrite Hstep2. reflexivity. }
    vm_compute in Hr. injection Hr as <-. vm_compute. reflexivity.
Defined.

(** X13. [start] on an idle game whose board is a still life with live
    cells reports harmony at once and leaves the field and the canvas as
    they are. The game is idle again but stays deaf to the mouse, the
    listeners being given back by [reset] only; each further [start]
    reports harmony once more. *)
Theorem still_life_reports_harmony (g : GameOfLife) :
  fieldInv g → isRunning g = false → scanField g = Some ([], true) →
  ∃ g', start g = Some g'
        ∧ field g' = field g ∧ canvas g' = canvas g
        ∧ alerts g' = alerts g ++ [harmonyMessage]
        ∧ isRunning g' = false ∧ aborted g' = true
        ∧ (∀ e, step g' (MouseMove e) = Some g'
                ∧ step g' (MouseDown e) = Some g')
        ∧ ∃ g'', start g' = Some g''
                 ∧ field g'' = field g
                 ∧ alerts g'' = alerts g ++ [harmonyMessage; harmonyMessage].
Proof.
  assert (Hstart : ∀ h, fieldInv h → isRunning h = false →
            scanField h = Some ([], true) →
            start h
            = Some (setTimeout
                 (mkGame (cols h) (rows h) (field h) (isSetting h) (timeOut h)
                    (frame h) false true true (canvas h)
                    (alerts h ++ [harmonyMessage])
                    (match timeOut h with
                     | Some id => timers h ∖ {[id]} | None => timers h end)
                    (match frame h with
                     | Some id => frames h ∖ {[id]} | None => frames h end)
                    (nextHandle h)))).
  { intros h Hinv Hidle Hscan. rewrite scanField_spec in Hscan by done.
    injection Hscan as Hnil Hlife.
    unfold start. rewrite Hidle.
    set (h2 := set_aborted true (set_isRunning true h)).
    assert (Hinv2 : fieldInv h2) by by apply (fieldInv_ext h).
    destruct (scan_ext h h2) as (Hd2 & Hl2 & _); [done..|].
    unfold render. cbn [isRunning h2 set_aborted set_isRunning negb].
    rewrite (updateField_fixed h2 Hinv2) by by rewrite Hd2.
    cbv zeta. rewrite Hl2, Hlife. cbn [negb]. by rewrite halted_proj. }
  intros Hinv Hidle Hscan. rewrite (Hstart g Hinv Hidle Hscan).
  set (g' := setTimeout _).
  exists g'. split; [done|].
  do 5 (split; [done|]). split; [done|].
  assert (Hinv' : fieldInv g') by by apply (fieldInv_ext g).
  assert (Hscan' : scanField g' = Some ([], true)).
  { rewrite scanField_spec by done.
    destruct (scan_ext g g') as (-> & -> & _); [done..|].
    by rewrite <- scanField_spec. }
  rewrite (Hstart g' Hinv' eq_refl Hscan').
  eexists. split; [reflexivity|]. cbn. split; [done|].
  by rewrite <- app_assoc.
Qed.

Lemma still_life_reports_harmony_witness :
  fieldInv blockGame4 ∧ isRunning blockGame4 = false
  ∧ scanField blockGame4 = Some ([], true)
  ∧ ∃ g', start blockGame4 = Some g'
          ∧ alerts g' = [harmonyMessage] ∧ aborted g' = true.
Proof.
  assert (H : fieldInv blockGame4).
  { apply (bool_decide_unpack _). vm_compute. exact I. }
  assert (Hscan : scanField blockGame4 = Some ([], true)).
  { vm_compute. reflexivity. }
  split; [exact H|]. split; [reflexivity|]. split; [exact Hscan|].
  destruct (still_life_reports_harmony blockGame4 H eq_refl Hscan)
    as (g' & Hstart & _ & _ & Hal & _ & Hab & _).
  exists g'. split; [exact Hstart|]. split; [exact Hal | exact Hab].
Defined.

(** ** A lone cell *)

Lemma lone_sum_zero (a b X1 X2 Y1 Y2 : Z) :
  X1 ≠ a → X2 ≠ a → Y1 ≠ b → Y2 ≠ b →
  let i := λ X Y : Z,
    if decide (X = a) then if decide (Y = b) then 1 else 0 else 0 in
  i X1 Y1 + (i a Y1 + (i X2 Y1 + (i X1 b + (i X2 b
    + (i X1 Y2 + (i a Y2 + (i X2 Y2 + 0))))))) = 0.
Proof. intros; subst i; cbv beta. repeat case_decide; lia. Qed.

Lemma lone_sum_not_three (a b x y X1 X2 Y1 Y2 : Z) :
  X1 ≠ x → X2 ≠ x → Y1 ≠ y → Y2 ≠ y → ¬ (x = a ∧ y = b) →
  let i := λ X Y : Z,
    if decide (X = a) then if decide (Y = b) then 1 else 0 else 0 in
  i X1 Y1 + (i x Y1 + (i X2 Y1 + (i X1 y + (i X2 y
    + (i X1 Y2 + (i x Y2 + (i X2 Y2 + 0))))))) ≠ 3.
Proof. intros; subst i; cbv beta. repeat case_decide; lia. Qed.

Section LoneCell.
Context (g : GameOfLife) (Hinv : fieldInv g).
Context (a b : Z) (Hlone : loneCell a b g).
Context (Hcols : 2 ≤ cols g) (Hrows : 2 ≤ rows g).

Lemma lone_read x y :
  inGrid g x y →
  readCell g y x = Some (if decide (x = a ∧ y = b) then 1 else 0).
Proof.
  intros Hin. unfold loneCell in Hlone. rewrite Forall_forall in Hlone.
  apply (Hlone (x, y)). by apply elem_of_gridCells.
Qed.

Lemma lone_value x y :
  inGrid g x y →
  cellValue g x y
  = if decide (x = a) then if decide (y = b) then 1 else 0 else 0.
Proof.
  intros Hin. unfold cellValue. rewrite lone_read by done.
  repeat case_decide; cbn; try done; tauto.
Qed.

Lemma lone_count x y :
  inGrid g x y →
  (x = a ∧ y = b → fullNeighboursCount g x y = 0)
  ∧ (¬ (x = a ∧ y = b) → fullNeighboursCount g x y ≠ 3).
Proof.
  intros [Hx Hy].
  assert (Hval : ∀ dx dy, -1 ≤ dx ≤ 1 → -1 ≤ dy ≤ 1 →
            cellValue g ((x + dx) `mod` cols g) ((y + dy) `mod` rows g)
            = if decide (wrap (cols g) (x + dx) = a)
              then if decide (wrap (rows g) (y + dy) = b) then 1 else 0
              else 0).
  { intros dx dy Hdx Hdy. rewrite <- !wrap_mod by lia.
    apply lone_value. split; apply wrap_range; lia. }
  unfold fullNeighboursCount, torusSum, NEIGHBOURS. cbn [foldr fst snd].
  rewrite !Hval by lia.
  assert (Hx0 : wrap (cols g) (x + 0) = x) by (unfold wrap; repeat case_decide; lia).
  assert (Hy0 : wrap (rows g) (y + 0) = y) by (unfold wrap; repeat case_decide; lia).
  assert (Hx1 : wrap (cols g) (x + -1) ≠ x) by (unfold wrap; repeat case_decide; lia).
  assert (Hx2 : wrap (cols g) (x + 1) ≠ x) by (unfold wrap; repeat case_decide; lia).
  assert (Hy1 : wrap (rows g) (y + -1) ≠ y) by (unfold wrap; repeat case_decide; lia).
  assert (Hy2 : wrap (rows g) (y + 1) ≠ y) by (unfold wrap; repeat case_decide; lia).
  rewrite Hx0, Hy0.
  generalize dependent (wrap (cols g) (x + -1)).
  generalize dependent (wrap (cols g) (x + 1)).
  generalize dependent (wrap (rows g) (y + -1)).
  generalize dependent (wrap (rows g) (y + 1)).
  intros Y2 Hy2 Y1 Hy1 X2 Hx2 X1 Hx1. split.
  - intros [-> ->]. by apply lone_sum_zero.
  - intros Hne. by apply lone_sum_not_three.
Qed.

Lemma lone_next_state x y : inGrid g x y → getCellState g x y = Some 0.
Proof.
  intros Hin.
  destruct (getCellState_inv g x y Hinv Hin) as (s & c & -> & Hc & -> & _).
  rewrite lone_read in Hc by done. injection Hc as <-.
  destruct (lone_count x y Hin) as [Hzero Hnot]. f_equal.
  case_decide as Hab.
  - by rewrite Hzero.
  - specialize (Hnot Hab). unfold nextState, BREAKPOINTS.NEWBORN. simpl.
    by rewrite bool_decide_eq_false_2.
Qed.

Lemma lone_diff ps :
  NoDup ps → (∀ p, p ∈ ps → inGrid g p.1 p.2) →
  diffOf g ps = if decide ((a, b) ∈ ps) then [mkChange a b 0] else [].
Proof.
  induction 1 as [|p ps Hp Hnd IH]; intros Hps; [done|].
  unfold diffOf in *. cbn [mbind list_bind].
  change (list_bind _ _ (changeOf g) ps) with (ps ≫= changeOf g).
  rewrite IH by (intros q Hq; apply Hps; by right).
  assert (Hin : inGrid g p.1 p.2) by (apply Hps; by left).
  assert (Hch : changeOf g p
                = if decide (p = (a, b)) then [mkChange a b 0] else []).
  { unfold changeOf. rewrite lone_next_state, lone_read by done.
    destruct p as [x y]. cbn [fst snd].
    destruct (decide (x = a ∧ y = b)) as [[-> ->]|Hne].
    - rewrite decide_True by done. by rewrite decide_True.
    - rewrite (decide_False (P := 0 ≠ 0)) by (intros H; by apply H).
      rewrite decide_False; [done|]. intros [= -> ->]. by apply Hne. }
  rewrite Hch. destruct (decide (p = (a, b))) as [-> | Hne].
  - rewrite decide_False by done. rewrite decide_True by (by left). done.
  - cbn [app]. destruct (decide ((a, b) ∈ ps)) as [Hel|Hel].
    + rewrite decide_True by (by right). done.
    + rewrite decide_False; [done|].
      intros [Heq|?]%elem_of_cons; [by apply Hne | by apply Hel].
Qed.
End LoneCell.

(** X14. On a board of at least two columns and two rows, a lone live cell
    dies of underpopulation and nothing is born around it: no dead cell
    counts exactly three neighbours, however the torus wraps. The scan
    records exactly that one cell, as a change to dead, and finds no life;
    [updateField] draws that cell and leaves the board dead. *)
Theorem lone_cell_dies (g : GameOfLife) (a b : Z) :
  fieldInv g → 2 ≤ cols g → 2 ≤ rows g → inGrid g a b → loneCell a b g →
  scanField g = Some ([mkChange a b 0], false)
  ∧ (∀ x y, inGrid g x y → getCellState g x y = Some 0)
  ∧ ∃ g', updateField g = Some g' ∧ allCells 0 g'
          ∧ canvas g'
            = canvas g ++ [DrawCell (a * CELL_SIZE) (b * CELL_SIZE)
                             (Some "#fff"%string)]
          ∧ isRunning g' = isRunning g ∧ alerts g' = alerts g.
Proof.
  intros Hinv Hc Hr Hab Hlone.
  assert (Hnext := lone_next_state g Hinv a b Hlone Hc Hr).
  assert (Hdiff : diffOf g (gridCells g) = [mkChange a b 0]).
  { rewrite (lone_diff g Hinv a b Hlone Hc Hr);
      [|apply NoDup_gridCells | intros p; apply elem_of_gridCells].
    rewrite decide_True; [done|]. by apply elem_of_gridCells. }
  assert (Hlife : lifeOf g (gridCells g) = false).
  { apply not_true_is_false. intros ([x y] & Hp & s & Hs & Hne)%lifeOf_true.
    apply elem_of_gridCells in Hp. cbn in Hp, Hs.
    rewrite Hnext in Hs by done. injection Hs as <-. by apply Hne. }
  split; [by rewrite scanField_spec, Hdiff, Hlife|]. split; [done|].
  destruct (updateField_next g Hinv) as (g' & Hup & _).
  exists g'. split; [done|].
  destruct (lifeless_generation g g' Hinv Hlife Hup) as (_ & Hdead & _).
  split; [done|].
  destruct (changing_generation g g' Hinv) as (f & ->);
    [by rewrite Hdiff | done |].
  by rewrite Hdiff.
Qed.

Lemma lone_cell_dies_witness :
  fieldInv cornerGame3 ∧ 2 ≤ cols cornerGame3 ∧ 2 ≤ rows cornerGame3
  ∧ inGrid cornerGame3 0 0 ∧ loneCell 0 0 cornerGame3
  ∧ scanField cornerGame3 = Some ([mkChange 0 0 0], false)
  ∧ ∃ g', updateField cornerGame3 = Some g' ∧ allCells 0 g'.
Proof.
  assert (H : fieldInv cornerGame3).
  { apply (bool_decide_unpack _). vm_compute. exact I. }
  assert (Hc : 2 ≤ cols cornerGame3) by (cbn; lia).
  assert (Hr : 2 ≤ rows cornerGame3) by (cbn; lia).
  assert (Hin : inGrid cornerGame3 0 0).
  { apply (bool_decide_unpack _). vm_compute. exact I. }
  assert (Hl : loneCell 0 0 cornerGame3).
  { apply (bool_decide_unpack _). vm_compute. exact I. }
  do 5 (split; [assumption|]).
  destruct (lone_cell_dies cornerGame3 0 0 H Hc Hr Hin Hl)
    as (Hscan & _ & g' & Hup & Hd & _).
  split; [exact Hscan|]. exists g'. split; [exact Hup | exact Hd].
Defined.

(** ** Translations of the torus *)

Lemma translated_read dx dy g h x y :
  translated dx dy g h → inGrid g x y →
  readCell h ((y + dy) `mod` rows g) ((x + dx) `mod` cols g) = readCell g y x.
Proof.
  intros (_ & _ & Hall) Hin. rewrite Forall_forall in Hall.
  apply (Hall (x, y)). by apply elem_of_gridCells.
Qed.

Lemma translated_torusSum dx dy g h x y ns :
  translated dx dy g h → inGrid g x y →
  torusSum h ((x + dx) `mod` cols g) ((y + dy) `mod` rows g) ns
  = torusSum g x y ns.
Proof.
  intros Htr [Hx Hy]. assert (Htr' := Htr). destruct Htr' as (Hc & Hr & _).
  unfold torusSum. induction ns as [|d ns IH]; [done|].
  cbn [foldr]. rewrite IH. f_equal.
  rewrite Hc, Hr. unfold cellValue.
  rewrite <- (translated_read dx dy g h) by
    (done || split; apply Z.mod_pos_bound; lia).
  f_equal. f_equal; rewrite !Z.add_mod_idemp_l by lia; f_equal; lia.
Qed.

Lemma translated_next_state dx dy g h x y :
  fieldInv g → fieldInv h → translated dx dy g h → inGrid g x y →
  getCellState h ((x + dx) `mod` cols g) ((y + dy) `mod` rows g)
  = getCellState g x y.
Proof.
  intros Hg Hh Htr Hin. assert (Htr' := Htr). destruct Htr' as (Hc & Hr & _).
  assert (Hin' : inGrid h ((x + dx) `mod` cols g) ((y + dy) `mod` rows g)).
  { destruct Hin. unfold inGrid. rewrite Hc, Hr.
    split; apply Z.mod_pos_bound; lia. }
  destruct (getCellState_inv g x y Hg Hin) as (s & c & -> & Hread & -> & _).
  destruct (getCellState_inv h _ _ Hh Hin') as (s' & c' & -> & Hread' & -> & _).
  rewrite (translated_read dx dy g h) in Hread' by done.
  rewrite Hread in Hread'. injection Hread' as <-.
  unfold fullNeighboursCount. by rewrite (translated_torusSum dx dy g h).
Qed.

(** X15. A generation commutes with the translations of the torus. If the
    field of [h] is the field of [g] moved by [(dx, dy)], indices taken
    modulo the dimensions, then every cell of [h] has the next state of the
    cell of [g] it comes from, and after [updateField] on both the field
    of the one is still the field of the other moved by [(dx, dy)]. *)
Theorem generation_commutes_with_translation
    (g h : GameOfLife) (dx dy : Z) :
  fieldInv g → fieldInv h → translated dx dy g h →
  (∀ x y, inGrid g x y →
          getCellState h ((x + dx) `mod` cols g) ((y + dy) `mod` rows g)
          = getCellState g x y)
  ∧ ∃ g' h', updateField g = Some g' ∧ updateField h = Some h'
             ∧ translated dx dy g' h'.
Proof.
  intros Hg Hh Htr. split.
  { intros x y Hin. by apply translated_next_state. }
  assert (Htr' := Htr). destruct Htr' as (Hc & Hr & _).
  destruct (updateField_next g Hg) as (g' & Hupg & _ & Hcg & Hrg & Hcellg).
  destruct (updateField_next h Hh) as (h' & Huph & _ & Hch & Hrh & Hcellh).
  exists g', h'. split; [done|]. split; [done|].
  split; [congruence|]. split; [congruence|].
  apply Forall_forall. intros [x y] Hp. apply elem_of_gridCells in Hp.
  cbn [fst snd] in *. rewrite Hcg, Hrg.
  assert (Hin : inGrid g x y) by (unfold inGrid in *; by rewrite <- Hcg, <- Hrg).
  rewrite Hcellg by done. rewrite Hcellh.
  - by apply translated_next_state.
  - destruct Hin. unfold inGrid. rewrite Hc, Hr.
    split; apply Z.mod_pos_bound; lia.
Qed.

Lemma generation_commutes_with_translation_witness :
  fieldInv cornerGame3
  ∧ fieldInv (gameOfRows 3 [[0; 0; 0]; [0; 0; 1]; [0; 0; 0]])
  ∧ translated (-1) 1 cornerGame3
      (gameOfRows 3 [[0; 0; 0]; [0; 0; 1]; [0; 0; 0]])
  ∧ getCellState (gameOfRows 3 [[0; 0; 0]; [0; 0; 1]; [0; 0; 0]]) 2 1
    = getCellState cornerGame3 0 0.
Proof.
  assert (Hg : fieldInv cornerGame3).
  { apply (bool_decide_unpack _). vm_compute. exact I. }
  assert (Hh : fieldInv (gameOfRows 3 [[0; 0; 0]; [0; 0; 1]; [0; 0; 0]])).
  { apply (bool_decide_unpack _). vm_compute. exact I. }
  assert (Htr : translated (-1) 1 cornerGame3
                  (gameOfRows 3 [[0; 0; 0]; [0; 0; 1]; [0; 0; 0]])).
  { apply (bool_decide_unpack _). vm_compute. exact I. }
  split; [exact Hg|]. split; [exact Hh|]. split; [exact Htr|].
  destruct (generation_commutes_with_translation _ _ _ _ Hg Hh Htr)
    as [Hnext _].
  apply (Hnext 0 0). unfold inGrid. cbn. lia.
Defined.

(** ** The grid lines *)

Lemma lineLoop_spec line (n : Z) fuel k :
  0 ≤ k → (Z.to_nat (n - k) < fuel)%nat →
  lineLoop fuel (k * CELL_SIZE) (n * CELL_SIZE) line
  = Some (i ← seqZ k (n - k); line (i * CELL_SIZE)).
Proof.
  revert k. induction fuel as [|fuel IH]; intros k Hk Hfuel; [lia|].
  cbn [lineLoop]. unfold CELL_SIZE in *. case_decide as Hlt.
  - replace (k * 15 + 15) with ((k + 1) * 15) by lia.
    rewrite IH by lia. cbn [mbind option_bind].
    rewrite (seqZ_cons k (n - k)) by lia. cbn [mbind list_bind].
    replace (Z.succ k) with (k + 1) by lia.
    by replace (Z.pred (n - k)) with (n - (k + 1)) by lia.
  - rewrite seqZ_nil by lia. done.
Qed.

(** X16. With fuel for more iterations than the board has columns and
    rows, the two loops of [drawGrid] end and lay one vertical line for
    each column and one horizontal line for each row, on the left and the
    top edge of the cells, over the whole height and width of the canvas;
    the right and the bottom edge of the board get no line. *)
Theorem drawGrid_path_lines (g : GameOfLife) (fuel : nat) :
  (Z.to_nat (Z.max (cols g) (rows g)) < fuel)%nat →
  drawGridPath fuel g
  = Some ((x ← seqZ 0 (cols g);
           [MoveTo (x * CELL_SIZE) 0;
            LineTo (x * CELL_SIZE) (rows g * CELL_SIZE)])
          ++ (y ← seqZ 0 (rows g);
              [MoveTo 0 (y * CELL_SIZE);
               LineTo (cols g * CELL_SIZE) (y * CELL_SIZE)])).
Proof.
  intros Hfuel.
  unfold drawGridPath, canvas_width, canvas_height.
  change 0 with (0 * CELL_SIZE) at 1 3.
  rewrite !lineLoop_spec by lia. cbn [mbind option_bind].
  by rewrite !Z.sub_0_r.
Qed.

Lemma drawGrid_path_lines_witness :
  drawGridPath 4 cornerGame3
  = Some [MoveTo 0 0; LineTo 0 45; MoveTo 15 0; LineTo 15 45;
          MoveTo 30 0; LineTo 30 45;
          MoveTo 0 0; LineTo 45 0; MoveTo 0 15; LineTo 45 15;
          MoveTo 0 30; LineTo 45 30].
Proof.
  assert (Hfuel : (Z.to_nat (Z.max (cols cornerGame3) (rows cornerGame3)) < 4)%nat).
  { vm_compute. lia. }
  rewrite (drawGrid_path_lines cornerGame3 4 Hfuel). reflexivity.
Defined.

(** ** Cells outside the grid *)

Lemma changeOf_agree g h p :
  getCellState h p.1 p.2 = getCellState g p.1 p.2 →
  readCell h p.2 p.1 = readCell g p.2 p.1 →
  changeOf h p = changeOf g p.
Proof. unfold changeOf. by intros -> ->. Qed.

(** Two states with the same dimensions that agree on the cells of the
    grid have the same scan. *)
Lemma scan_agree g h :
  fieldInv g → fieldInv h → cols h = cols g → rows h = rows g →
  (∀ x y, inGrid g x y → readCell h y x = readCell g y x) →
  (∀ x y, inGrid g x y → getCellState h x y = getCellState g x y)
  ∧ scanField h = scanField g.
Proof.
  intros Hg Hh Hc Hr Hsame.
  assert (Htr : translated 0 0 g h).
  { split; [done|]. split; [done|]. apply Forall_forall.
    intros [x y] [Hx Hy]%elem_of_gridCells. cbn [fst snd] in *.
    rewrite !Z.add_0_r, !Z.mod_small by lia. by apply Hsame. }
  assert (Hnext : ∀ x y, inGrid g x y →
                         getCellState h x y = getCellState g x y).
  { intros x y Hin.
    rewrite <- (translated_next_state 0 0 g h x y) by done.
    destruct Hin. by rewrite !Z.add_0_r, !Z.mod_small by lia. }
  split; [done|]. rewrite !scanField_spec by done.
  assert (Hcells : gridCells h = gridCells g).
  { unfold gridCells. by rewrite Hc, Hr. }
  rewrite Hcells.
  assert (Hps : ∀ ps, (∀ p, p ∈ ps → inGrid g p.1 p.2) →
                      diffOf h ps = diffOf g ps ∧ lifeOf h ps = lifeOf g ps).
  { induction ps as [|p ps IH]; intros Hin; [done|].
    destruct IH as [IHd IHl]; [intros q Hq; apply Hin; by right|].
    assert (Hp : inGrid g p.1 p.2) by (apply Hin; by left).
    unfold diffOf, lifeOf in *. cbn [mbind list_bind existsb].
    change (list_bind _ _ (changeOf h) ps) with (ps ≫= changeOf h).
    change (list_bind _ _ (changeOf g) ps) with (ps ≫= changeOf g).
    rewrite IHd, IHl, (changeOf_agree g h p), Hnext by auto. done. }
  destruct (Hps (gridCells g)) as [-> ->]; [|done].
  intros p. apply elem_of_gridCells.
Qed.

(** X17. A paint that falls outside the grid, which [setFirstGen] lets
    through when the pointer is left or right of the board, is stored and
    drawn but is never read by the engine: the cells of the grid, their
    next states and the scan of the next generation are what they were
    before it. *)
Theorem off_grid_paint_is_inert (g g' : GameOfLife) (e : MouseEvent) :
  fieldInv g → buttons e = 1 → 0 ≤ offsetY e < rows g * CELL_SIZE →
  ¬ (0 ≤ offsetX e < cols g * CELL_SIZE) →
  setFirstGen g e = Some g' →
  readCell g' (offsetY e `div` CELL_SIZE) (offsetX e `div` CELL_SIZE)
  = Some (Z.b2z (isSetting g))
  ∧ length (canvas g') = S (length (canvas g))
  ∧ (∀ x y, inGrid g x y → readCell g' y x = readCell g y x)
  ∧ (∀ x y, inGrid g x y → getCellState g' x y = getCellState g x y)
  ∧ scanField g' = scanField g.
Proof.
  intros Hinv Hb Hy Hx Hset.
  destruct (setFirstGen_painted g e Hinv Hb Hy) as (g1 & Hg1 & Hfs).
  rewrite Hset in Hg1. injection Hg1 as <-.
  destruct (fieldSet_frame _ _ _ _ _ Hfs)
    as (Hc & Hr & _ & _ & _ & _ & _ & _ & _ & _ & _ & _ & Hcanvas).
  assert (Hsame : ∀ x y, inGrid g x y → readCell g' y x = readCell g y x).
  { intros x y [Hx' Hy']. rewrite (readCell_fieldSet _ _ _ _ _ y x Hfs).
    rewrite decide_False; [done|]. intros [_ ->].
    apply Hx, cell_of_pixel_iff, Hx'. }
  assert (Hinv' : fieldInv g').
  { eapply fieldSet_inv; [done| |done]. destruct (isSetting g); cbn; lia. }
  split.
  { rewrite (readCell_fieldSet _ _ _ _ _ _ _ Hfs). by rewrite decide_True. }
  split; [rewrite Hcanvas, length_app; cbn; lia|].
  split; [done|]. by apply scan_agree.
Qed.

Lemma off_grid_paint_is_inert_witness :
  fieldInv blinkerGame5
  ∧ ∃ g', setFirstGen blinkerGame5 (mkMouseEvent 80 30 1) = Some g'
          ∧ readCell g' 2 5 = Some 1
          ∧ scanField g' = scanField blinkerGame5.
Proof.
  assert (H : fieldInv blinkerGame5).
  { apply (bool_decide_unpack _). vm_compute. exact I. }
  split; [exact H|].
  assert (Hs : is_Some (setFirstGen blinkerGame5 (mkMouseEvent 80 30 1))).
  { vm_compute. eexists. reflexivity. }
  destruct Hs as [g' Hg']. exists g'. split; [exact Hg'|].
  assert (Hy : 0 ≤ offsetY (mkMouseEvent 80 30 1)
               < rows blinkerGame5 * CELL_SIZE).
  { cbn. unfold CELL_SIZE. lia. }
  assert (Hx : ¬ (0 ≤ offsetX (mkMouseEvent 80 30 1)
                  < cols blinkerGame5 * CELL_SIZE)).
  { cbn. unfold CELL_SIZE. lia. }
  destruct (off_grid_paint_is_inert blinkerGame5 g' (mkMouseEvent 80 30 1)
              H eq_refl Hy Hx Hg') as (Hread & _ & _ & _ & Hscan).
  split; [exact Hread | exact Hscan].
Defined.

(** * The paint value across runs *)

(** ** What an event leaves in a cell it does not paint *)










